(** * The local file source of the rolodex (package [index])

    A shallow embedding of [LocalFS], [LocalFile] and [localRolodexFile]:
    discovery of candidate files ([NewLocalFSWithConfig]), addressing
    ([LocalFS.Open]), the read cursor ([localRolodexFile.Read]) and the lazy
    parse / index caches ([LocalFile.GetContentAsYAMLNode], [LocalFile.Index]).

    Go pointers are addresses into typed heaps, so that two references to one
    object alias; a heap is a list and allocation appends to it.  The calls
    made to the collaborators of the package (the YAML parser, the spec-info
    extractor, the index builder) are logged in the store, which makes
    "parsed once" a statement about the log. *)

From Stdlib Require Import ZArith Strings.Byte Strings.Ascii.
From stdpp Require Import gmap strings list.

Local Open Scope string_scope.

(** ** Errors *)

(** Go [error] values.  The sentinels of [io] and [io/fs] are constructors;
    [PathError] is [*fs.PathError]. *)
Inductive error : Type :=
  | ErrNotExist
  | ErrInvalid
  | ErrPermission
  | SkipDir
  | SkipAll
  | EOF
  | PathError (Op Path : string) (Err : error)
  | Errorf (msg : string)
  | ErrGetwd
  | ErrIO (msg : string)
  | ErrYAML (msg : string).

Fixpoint error_eqb (a b : error) : bool :=
  match a, b with
  | ErrNotExist, ErrNotExist | ErrInvalid, ErrInvalid
  | ErrPermission, ErrPermission | SkipDir, SkipDir | SkipAll, SkipAll
  | EOF, EOF | ErrGetwd, ErrGetwd => true
  | PathError o p e, PathError o' p' e' =>
      String.eqb o o' && String.eqb p p' && error_eqb e e'
  | Errorf m, Errorf m' | ErrIO m, ErrIO m' | ErrYAML m, ErrYAML m' =>
      String.eqb m m'
  | _, _ => false
  end.

(** [errors.Is(err, target)] for the error shapes above: [PathError] unwraps
    to its [Err]. *)
Fixpoint errors_Is (err target : error) : bool :=
  error_eqb err target ||
  match err with
  | PathError _ _ e => errors_Is e target
  | _ => false
  end.

(** ** Data model *)

(** An address in one of the heaps. *)
Definition loc := nat.

(** [yaml.Node]: only the identity of a node matters to this package, its
    payload is carried along. *)
#[warnings="-register-all"]
Inductive yaml_Node : Type :=
  | YNode (Kind : nat) (Tag Value : string) (Content : list yaml_Node).

Inductive FileExtension : Type := YAML | JSON | UNSUPPORTED.

Definition Time := nat.

(** [SpecIndexConfig] is opaque to this package. *)
Record SpecIndexConfig : Type := { cfgBasePath : string; cfgAllowRemote : bool }.

(** The two fields of [SpecIndex] this package touches, and the
    configuration the index was built with. *)
Record SpecIndex : Type := {
  root : option loc;             (* pointer to a yaml.Node *)
  specAbsolutePath : string;
  config : SpecIndexConfig
}.

Record LocalFile : Type := {
  filename : string;
  name : string;
  extension : FileExtension;
  data : option (list byte);     (* []byte, None is the nil slice *)
  fullPath : string;
  lastModified : Time;
  readingErrors : list error;
  index : option loc;            (* pointer to a SpecIndex *)
  parsed : option loc            (* pointer to a yaml.Node *)
}.

Record localRolodexFile : Type := {
  f : loc;                       (* RolodexFile, here always a LocalFile *)
  offset : Z                     (* int64 *)
}.

(** Calls made to the collaborators, oldest first. *)
Inductive Event : Type :=
  | EvUnmarshal (content : list byte)
  | EvExtractSpecInfo (content : list byte)
  | EvNewSpecIndex (rootNode : option loc) (cfg : SpecIndexConfig).

Record Store : Type := {
  nodes : list yaml_Node;
  indexes : list SpecIndex;
  files : list LocalFile;
  handles : list localRolodexFile;
  events : list Event;
  clock : Time                   (* what time.Now() returns next *)
}.

Definition emptyStore : Store :=
  {| nodes := []; indexes := []; files := []; handles := []; events := [];
     clock := 0 |}.

(** Record updates. *)
Definition set_nodes (ns : list yaml_Node) (w : Store) : Store :=
  {| nodes := ns; indexes := indexes w; files := files w;
     handles := handles w; events := events w; clock := clock w |}.
Definition set_indexes (xs : list SpecIndex) (w : Store) : Store :=
  {| nodes := nodes w; indexes := xs; files := files w;
     handles := handles w; events := events w; clock := clock w |}.
Definition set_files (fs : list LocalFile) (w : Store) : Store :=
  {| nodes := nodes w; indexes := indexes w; files := fs;
     handles := handles w; events := events w; clock := clock w |}.
Definition set_handles (hs : list localRolodexFile) (w : Store) : Store :=
  {| nodes := nodes w; indexes := indexes w; files := files w;
     handles := hs; events := events w; clock := clock w |}.
Definition log (e : Event) (w : Store) : Store :=
  {| nodes := nodes w; indexes := indexes w; files := files w;
     handles := handles w; events := events w ++ [e]; clock := clock w |}.
Definition tick (w : Store) : Store :=
  {| nodes := nodes w; indexes := indexes w; files := files w;
     handles := handles w; events := events w; clock := S (clock w) |}.

Definition set_root (r : option loc) (i : SpecIndex) : SpecIndex :=
  {| root := r; specAbsolutePath := specAbsolutePath i; config := config i |}.
Definition set_specAbsolutePath (p : string) (i : SpecIndex) : SpecIndex :=
  {| root := root i; specAbsolutePath := p; config := config i |}.
Definition set_index (i : option loc) (l : LocalFile) : LocalFile :=
  {| filename := filename l; name := name l; extension := extension l;
     data := data l; fullPath := fullPath l; lastModified := lastModified l;
     readingErrors := readingErrors l; index := i; parsed := parsed l |}.
Definition set_parsed (p : option loc) (l : LocalFile) : LocalFile :=
  {| filename := filename l; name := name l; extension := extension l;
     data := data l; fullPath := fullPath l; lastModified := lastModified l;
     readingErrors := readingErrors l; index := index l; parsed := p |}.

(** ** A state monad with faults

    [Fault] is a dereference of an address that is not allocated; Go code
    never holds such a pointer, so every theorem assumes the addresses it is
    given are allocated. *)
Inductive outcome (A : Type) : Type :=
  | Ret (a : A) (w : Store)
  | Fault.
Arguments Ret {A} a w.
Arguments Fault {A}.

Definition Go (A : Type) : Type := Store -> outcome A.

Definition ret {A} (a : A) : Go A := fun w => Ret a w.
Definition bind {A B} (m : Go A) (k : A -> Go B) : Go B :=
  fun w => match m w with Ret a w' => k a w' | Fault => Fault end.
Definition fault {A} : Go A := fun _ => Fault.

Declare Scope go_scope.
Delimit Scope go_scope with go.
Notation "x <- m ;; k" := (bind m (fun x => k))
  (at level 100, m at next level, right associativity) : go_scope.
Notation "m ;;; k" := (bind m (fun _ => k))
  (at level 100, right associativity) : go_scope.

Definition emit (e : Event) : Go unit := fun w => Ret tt (log e w).

(** [time.Now()]: the clock only moves forward. *)
Definition time_Now : Go Time := fun w => Ret (clock w) (tick w).

Definition loadFile (l : loc) : Go LocalFile :=
  fun w => match files w !! l with Some x => Ret x w | None => Fault end.
Definition storeFile (l : loc) (x : LocalFile) : Go unit :=
  fun w => match files w !! l with
           | Some _ => Ret tt (set_files (<[l := x]> (files w)) w)
           | None => Fault
           end.
Definition loadIndex (i : loc) : Go SpecIndex :=
  fun w => match indexes w !! i with Some x => Ret x w | None => Fault end.
Definition storeIndex (i : loc) (x : SpecIndex) : Go unit :=
  fun w => match indexes w !! i with
           | Some _ => Ret tt (set_indexes (<[i := x]> (indexes w)) w)
           | None => Fault
           end.
Definition loadHandle (h : loc) : Go localRolodexFile :=
  fun w => match handles w !! h with Some x => Ret x w | None => Fault end.
Definition storeHandle (h : loc) (x : localRolodexFile) : Go unit :=
  fun w => match handles w !! h with
           | Some _ => Ret tt (set_handles (<[h := x]> (handles w)) w)
           | None => Fault
           end.

(** Allocation: the new object lives at the end of its heap. *)
Definition newNode (n : yaml_Node) : Go loc :=
  fun w => Ret (length (nodes w)) (set_nodes (nodes w ++ [n]) w).
Definition newIndex (i : SpecIndex) : Go loc :=
  fun w => Ret (length (indexes w)) (set_indexes (indexes w ++ [i]) w).
Definition newFile (x : LocalFile) : Go loc :=
  fun w => Ret (length (files w)) (set_files (files w ++ [x]) w).
Definition newHandle (x : localRolodexFile) : Go loc :=
  fun w => Ret (length (handles w)) (set_handles (handles w ++ [x]) w).

(** ** Collaborators

    The parsers and the index builder are not part of this package; the
    development is parametric in them. *)
Record Collaborators : Type := {
  (* yaml.Unmarshal(data, &root) *)
  yaml_Unmarshal : list byte -> yaml_Node + error;
  (* datamodel.ExtractSpecInfoWithDocumentCheck(content, true): the root
     node of the returned info, nil when it has none *)
  ExtractSpecInfoWithDocumentCheck : list byte -> bool -> option yaml_Node + error;
  (* the index NewSpecIndexWithConfig(rootNode, config) builds, before this
     package stamps it *)
  buildSpecIndex : option loc -> SpecIndexConfig -> SpecIndex;
  (* ExtractFileType(p) *)
  ExtractFileType : string -> FileExtension
}.

(** A nil [[]byte] handed to a parser is an empty input. *)
Definition bytes_of (d : option (list byte)) : list byte := default [] d.

Section LazyCaches.
Context (C : Collaborators).
Local Open Scope go_scope.

(** [NewSpecIndexWithConfig(rootNode, config)] *)
Definition NewSpecIndexWithConfig (rootNode : option loc) (cfg : SpecIndexConfig)
  : Go loc :=
  emit (EvNewSpecIndex rootNode cfg) ;;;
  newIndex (buildSpecIndex C rootNode cfg).

(** [LocalFile.GetIndex] *)
Definition GetIndex (l : loc) : Go (option loc) :=
  x <- loadFile l ;; ret (index x).

(** [LocalFile.Index]: the cached index, or parse the content, build the
    index, stamp it with the file's path and cache it. *)
Definition Index (l : loc) (cfg : SpecIndexConfig) : Go (loc + error) :=
  x <- loadFile l ;;
  match index x with
  | Some i => ret (inl i)
  | None =>
      let content := bytes_of (data x) in
      emit (EvExtractSpecInfo content) ;;;
      match ExtractSpecInfoWithDocumentCheck C content true with
      | inr err => ret (inr err)
      | inl rootValue =>
          rootNode <- match rootValue with
                      | Some n => r <- newNode n ;; ret (Some r)
                      | None => ret None
                      end ;;
          i <- NewSpecIndexWithConfig rootNode cfg ;;
          ix <- loadIndex i ;;
          storeIndex i (set_specAbsolutePath (fullPath x) ix) ;;;
          x' <- loadFile l ;;
          storeFile l (set_index (Some i) x') ;;;
          ret (inl i)
      end
  end.

(** [l.index != nil && l.index.root != nil], giving the root when so. *)
Definition indexRoot (x : LocalFile) : Go (option loc) :=
  match index x with
  | Some i => ix <- loadIndex i ;; ret (root ix)
  | None => ret None
  end.

(** [LocalFile.GetContentAsYAMLNode] *)
Definition GetContentAsYAMLNode (l : loc) : Go (loc + error) :=
  x <- loadFile l ;;
  match parsed x with
  | Some p => ret (inl p)
  | None =>
      r <- indexRoot x ;;
      match r with
      | Some p => ret (inl p)
      | None =>
          match data x with
          | None =>
              ret (inr (Errorf ("no data to parse for file: " ++ fullPath x)))
          | Some d =>
              emit (EvUnmarshal d) ;;;
              match yaml_Unmarshal C d with
              | inr err => ret (inr err)
              | inl n =>
                  p <- newNode n ;;
                  match index x with
                  | Some i =>
                      ix <- loadIndex i ;;
                      match root ix with
                      | None => storeIndex i (set_root (Some p) ix)
                      | Some _ => ret tt
                      end
                  | None => ret tt
                  end ;;;
                  x' <- loadFile l ;;
                  storeFile l (set_parsed (Some p) x') ;;;
                  ret (inl p)
              end
          end
      end
  end.

End LazyCaches.

(** ** Paths

    [strings.HasPrefix] and the Unix versions of [filepath.IsAbs],
    [filepath.Clean], [filepath.Join], [filepath.Abs], [filepath.Ext] and
    [filepath.Base] of the Go standard library, on path elements. *)

Fixpoint HasPrefix (s prefix : string) {struct prefix} : bool :=
  match prefix, s with
  | EmptyString, _ => true
  | String a prefix', String b s' => Ascii.eqb a b && HasPrefix s' prefix'
  | _, _ => false
  end.

Definition IsAbs (path : string) : bool := HasPrefix path "/".

(** The elements between the separators; [n] separators give [n+1]
    elements, some of them empty. *)
Fixpoint splitSlash (s : string) : list string :=
  match s with
  | EmptyString => [""]
  | String c r =>
      if Ascii.eqb c "/"%char then "" :: splitSlash r
      else match splitSlash r with
           | h :: t => String c h :: t
           | [] => [String c ""]
           end
  end.

Fixpoint joinSlash (es : list string) : string :=
  match es with
  | [] => ""
  | [e] => e
  | e :: rest => e ++ "/" ++ joinSlash rest
  end.

(** The elements of the cleaned path, [acc] holding in reverse those kept so
    far: empty and [.] elements go, [..] removes the element before it, is
    dropped at the root, and is kept at the start of a relative path. *)
Fixpoint cleanElems (rooted : bool) (acc es : list string) : list string :=
  match es with
  | [] => rev acc
  | e :: rest =>
      if String.eqb e "" || String.eqb e "." then cleanElems rooted acc rest
      else if String.eqb e ".." then
        match acc with
        | top :: acc' =>
            if String.eqb top ".." then cleanElems rooted (e :: acc) rest
            else cleanElems rooted acc' rest
        | [] =>
            if rooted then cleanElems rooted [] rest
            else cleanElems rooted [e] rest
        end
      else cleanElems rooted (e :: acc) rest
  end.

Definition Clean (path : string) : string :=
  if String.eqb path "" then "."
  else
    let out := joinSlash (cleanElems (IsAbs path) [] (splitSlash path)) in
    if IsAbs path then "/" ++ out
    else if String.eqb out "" then "." else out.

(** [filepath.Join(a, b)]: empty elements are ignored, the rest is joined
    with a separator and cleaned. *)
Definition Join (a b : string) : string :=
  if negb (String.eqb a "") then Clean (a ++ "/" ++ b)
  else if negb (String.eqb b "") then Clean b
  else "".

(** [filepath.Abs(path)], with [wd] the result of [os.Getwd()]. *)
Definition Abs (wd : string + error) (path : string) : string + error :=
  if IsAbs path then inl (Clean path)
  else match wd with
       | inl d => inl (Join d path)
       | inr err => inr err
       end.

Fixpoint fromLastDot (s : string) : string :=
  match s with
  | EmptyString => ""
  | String c r =>
      match fromLastDot r with
      | EmptyString => if Ascii.eqb c "."%char then s else ""
      | e => e
      end
  end.

(** [filepath.Ext(path)]: the suffix from the last dot of the last element. *)
Definition Ext (path : string) : string :=
  fromLastDot (List.last (splitSlash path) "").

(** [filepath.Base(path)] *)
Definition Base (path : string) : string :=
  if String.eqb path "" then "."
  else List.last (List.filter (fun e => negb (String.eqb e "")) (splitSlash path)) "/".

(** [slices.Contains] *)
Definition Contains (xs : list string) (x : string) : bool :=
  existsb (String.eqb x) xs.

(** ** The directory file system handed to the walk ([fs.FS]) *)

(** [fs.DirEntry] *)
Record DirEntry : Type := { Name : string; IsDir : bool }.

(** [fs.FileInfo], as far as discovery reads it. *)
Record FileInfo : Type := { ModTime : Time; Size : Z }.

(** An opened [fs.File]: what [file.Stat()] and [io.ReadAll(file)] give.
    [Stat] is the Go pair: the info may be nil. *)
Record File : Type := {
  Stat : option FileInfo * option error;
  ReadAll : list byte + error
}.

(** What the walk sees below a root: files, and directories with the
    entries [fs.ReadDir] lists (in its order) and the error it reports. *)
#[warnings="-register-all"]
Inductive Tree : Type :=
  | TFile (nm : string)
  | TDir (nm : string) (readErr : option error) (entries : list Tree).

Definition treeName (t : Tree) : string :=
  match t with TFile nm => nm | TDir nm _ _ => nm end.

Definition treeEntry (t : Tree) : DirEntry :=
  match t with
  | TFile nm => {| Name := nm; IsDir := false |}
  | TDir nm _ _ => {| Name := nm; IsDir := true |}
  end.

Record FS : Type := {
  (* fs.Stat(fsys, ".") and what lies below *)
  fsRoot : Tree + error;
  (* fsys.Open(p) *)
  fsOpen : string -> File + error
}.

(** The state a [fs.WalkDirFunc] closure works on, and what it returns. *)
Section WalkDir.
Context {St : Type}.
Context (fn : string -> option DirEntry -> option error -> St -> Go (St * option error)).
Local Open Scope go_scope.

Definition isSkipDir (e : error) : bool := error_eqb e SkipDir.
Definition isSkipAll (e : error) : bool := error_eqb e SkipAll.

(** [io/fs.walkDir]: the function is called on the entry, then once more on a
    directory whose listing failed, then the listed entries are walked; an
    error stops the walk, [SkipDir] only leaves the directory. *)
Fixpoint walkDir (name : string) (t : Tree) (s : St) : Go (St * option error) :=
  match t with
  | TFile _ => fn name (Some (treeEntry t)) None s
  | TDir _ readErr entries =>
      r1 <- fn name (Some (treeEntry t)) None s ;;
      match r1 with
      | (s1, Some err) => ret (s1, if isSkipDir err then None else Some err)
      | (s1, None) =>
          r2 <- match readErr with
                | Some err => fn name (Some (treeEntry t)) (Some err) s1
                | None => ret (s1, None)
                end ;;
          match r2 with
          | (s2, Some err) => ret (s2, if isSkipDir err then None else Some err)
          | (s2, None) =>
              (fix walkEntries (ts : list Tree) (s : St) : Go (St * option error) :=
                 match ts with
                 | [] => ret (s, None)
                 | d1 :: rest =>
                     r <- walkDir (Join name (treeName d1)) d1 s ;;
                     match r with
                     | (s', Some err) =>
                         ret (s', if isSkipDir err then None else Some err)
                     | (s', None) => walkEntries rest s'
                     end
                 end) entries s2
          end
      end
  end.

(** [fs.WalkDir(fsys, root, fn)] *)
Definition WalkDir (fsys : FS) (root : string) (s : St) : Go (St * option error) :=
  r <- match fsRoot fsys with
       | inr err => fn root None (Some err) s
       | inl t => walkDir root t s
       end ;;
  match r with
  | (s', Some err) =>
      ret (s', if isSkipDir err || isSkipAll err then None else Some err)
  | (s', None) => ret (s', None)
  end.

End WalkDir.

(** ** Discovery *)

Record LocalFSConfig : Type := {
  BaseDirectory : string;
  FileFilters : list string;
  DirFS : FS
}.

Record LocalFS : Type := {
  entryPointDirectory : string;
  baseDirectory : string;
  Files : gmap string loc;       (* map[string]RolodexFile *)
  parseTime : Z;
  fsReadingErrors : list error;  (* LocalFS.readingErrors *)
  filters : list string
}.

(** The variables the walk function closes over. *)
Record Walk : Type := {
  localFiles : gmap string loc;
  allErrors : list error
}.

Definition addError (e : error) (s : Walk) : Walk :=
  {| localFiles := localFiles s; allErrors := allErrors s ++ [e] |}.
Definition addFile (abs : string) (l : loc) (s : Walk) : Walk :=
  {| localFiles := <[abs := l]> (localFiles s); allErrors := allErrors s |}.

Section Discovery.
Context (C : Collaborators).
Context (wd : string + error).   (* os.Getwd() *)
Local Open Scope go_scope.

(** The function [NewLocalFSWithConfig] hands to [fs.WalkDir]; [ext] and
    [file] are the extension and the base name of the configured root.
    Messages to the package logger are not modelled. *)
Definition walkFn (cfg : LocalFSConfig) (ext file : string)
    (p : string) (d : option DirEntry) (err : option error) (s : Walk)
  : Go (Walk * option error) :=
  match err with
  | Some e => ret (s, Some e)
  | None =>
      if match d with None => true | Some d => IsDir d end then ret (s, None)
      else if (2 <? String.length ext)%nat && negb (String.eqb p file)
      then ret (s, None)
      else if HasPrefix p "." then ret (s, None)
      else if (0 <? length (FileFilters cfg))%nat
              && negb (Contains (FileFilters cfg) p)
      then ret (s, None)
      else
        let extension := ExtractFileType C p in
        let '(abs, readingErrors) :=
          match Abs wd (Join (BaseDirectory cfg) p) with
          | inl a => (a, [])
          | inr absErr => ("", [absErr])
          end in
        match extension with
        | YAML | JSON =>
            let opened := fsOpen (DirFS cfg) p in
            now <- time_Now ;;
            match opened with
            | inr readErr => ret (addError readErr s, None)
            | inl file =>
                let '(stat, statErr) := Stat file in
                let readingErrors :=
                  match statErr with
                  | Some e => (readingErrors ++ [e])%list
                  | None => readingErrors
                  end in
                let s :=
                  match statErr with
                  | Some e => addError e s
                  | None => s
                  end in
                let modTime :=
                  match stat with
                  | Some info => ModTime info
                  | None => now
                  end in
                match ReadAll file with
                | inr readErr => ret (addError readErr s, None)
                | inl fileData =>
                    l <- newFile {| filename := p;
                                    name := Base p;
                                    extension := ExtractFileType C p;
                                    data := Some fileData;
                                    fullPath := abs;
                                    lastModified := modTime;
                                    readingErrors := readingErrors;
                                    index := None;
                                    parsed := None |} ;;
                    ret (addFile abs l s, None)
                end
            end
        | UNSUPPORTED => ret (s, None)
        end
  end.

(** [NewLocalFSWithConfig(config)] *)
Definition NewLocalFSWithConfig (cfg : LocalFSConfig) : Go (LocalFS + error) :=
  let ext := Ext (BaseDirectory cfg) in
  let file := Base (BaseDirectory cfg) in
  match Abs wd (BaseDirectory cfg) with
  | inr absBaseErr => ret (inr absBaseErr)
  | inl absBaseDir =>
      r <- WalkDir (walkFn cfg ext file) (DirFS cfg) "."
             {| localFiles := ∅; allErrors := [] |} ;;
      match r with
      | (_, Some walkErr) => ret (inr walkErr)
      | (s, None) =>
          ret (inl {| entryPointDirectory := BaseDirectory cfg;
                      baseDirectory := absBaseDir;
                      Files := localFiles s;
                      parseTime := 0;
                      fsReadingErrors := allErrors s;
                      filters := [] |})
      end
  end.

(** [NewLocalFS(baseDir, dirFS)] *)
Definition NewLocalFS (baseDir : string) (dirFS : FS) : Go (LocalFS + error) :=
  NewLocalFSWithConfig
    {| BaseDirectory := baseDir; FileFilters := []; DirFS := dirFS |}.

(** ** Addressing *)

(** [LocalFS.GetFiles] *)
Definition GetFiles (l : LocalFS) : gmap string loc := Files l.

(** The key [LocalFS.Open] looks up: an absolute name as it is, any other
    name joined to the base directory and made absolute. *)
Definition resolve (l : LocalFS) (name : string) : string + error :=
  if negb (IsAbs name) then Abs wd (Join (baseDirectory l) name)
  else inl name.

(** [LocalFS.Open(name)]: the handle is a new [localRolodexFile] whose
    offset is the zero value. *)
Definition Open (l : LocalFS) (name : string) : Go (loc + error) :=
  match resolve l name with
  | inr absErr => ret (inr absErr)
  | inl name =>
      match Files l !! name with
      | Some x => h <- newHandle {| f := x; offset := 0 |} ;; ret (inl h)
      | None => ret (inr (PathError "open" name ErrNotExist))
      end
  end.

End Discovery.

(** ** File handles *)

Section Handles.
Local Open Scope go_scope.

(** [LocalFile.GetContent]: [string(l.data)] *)
Definition GetContent (l : loc) : Go (list byte) :=
  x <- loadFile l ;; ret (bytes_of (data x)).

(** [LocalFile.GetFullPath] *)
Definition GetFullPath (l : loc) : Go string :=
  x <- loadFile l ;; ret (fullPath x).

(** [LocalFile.Size] *)
Definition Size_ (l : loc) : Go Z :=
  x <- loadFile l ;; ret (Z.of_nat (length (bytes_of (data x)))).

(** The builtin [copy(dst, src)]: the new contents of [dst] and the number
    of bytes copied. *)
Definition copy (dst src : list byte) : list byte * nat :=
  let n := min (length dst) (length src) in
  ((take n src ++ drop n dst)%list, n).

(** [localRolodexFile.Read(b)]: the buffer after the call, the count and the
    error.  The offset never exceeds the content length, so the [int64]
    addition does not wrap. *)
Definition Read (r : loc) (b : list byte) : Go (list byte * Z * option error) :=
  h <- loadHandle r ;;
  content <- GetContent (f h) ;;
  if (Z.of_nat (length content) <=? offset h)%Z then ret (b, 0%Z, Some EOF)
  else if (offset h <? 0)%Z then
    path <- GetFullPath (f h) ;;
    ret (b, 0%Z, Some (PathError "read" path ErrInvalid))
  else
    let '(b', n) := copy b (drop (Z.to_nat (offset h)) content) in
    storeHandle r {| f := f h; offset := (offset h + Z.of_nat n)%Z |} ;;;
    ret (b', Z.of_nat n, None).

(** [localRolodexFile.Close] *)
Definition Close (r : loc) : Go (option error) := ret None.

(** [localRolodexFile.Stat]: the file record itself is the [fs.FileInfo]. *)
Definition Stat_ (r : loc) : Go (loc * option error) :=
  h <- loadHandle r ;; ret (f h, None).

End Handles.

(** ** Overlapping calls of [Index]

    [LocalFile.Index] takes no lock, so two calls on one record interleave
    between their accesses to the record: the test of [l.index], the build of
    a new index (which touches nothing another call can see), and the
    assignment to [l.index]. *)

Inductive IndexPC : Type :=
  | AtEntry                       (* about to test l.index *)
  | AtBuild                       (* l.index was nil *)
  | AtPublish (i : loc)           (* the index is built and stamped *)
  | Returned (r : loc + error).

Section Threads.
Context (C : Collaborators).
Local Open Scope go_scope.

Definition indexStep (l : loc) (cfg : SpecIndexConfig) (pc : IndexPC) : Go IndexPC :=
  match pc with
  | AtEntry =>
      x <- loadFile l ;;
      match index x with
      | Some i => ret (Returned (inl i))
      | None => ret AtBuild
      end
  | AtBuild =>
      x <- loadFile l ;;
      let content := bytes_of (data x) in
      emit (EvExtractSpecInfo content) ;;;
      match ExtractSpecInfoWithDocumentCheck C content true with
      | inr err => ret (Returned (inr err))
      | inl rootValue =>
          rootNode <- match rootValue with
                      | Some n => r <- newNode n ;; ret (Some r)
                      | None => ret None
                      end ;;
          i <- NewSpecIndexWithConfig C rootNode cfg ;;
          ix <- loadIndex i ;;
          storeIndex i (set_specAbsolutePath (fullPath x) ix) ;;;
          ret (AtPublish i)
      end
  | AtPublish i =>
      x' <- loadFile l ;;
      storeFile l (set_index (Some i) x') ;;;
      ret (Returned (inl i))
  | Returned r => ret (Returned r)
  end.

(** One call running alone. *)
Definition indexAlone (l : loc) (cfg : SpecIndexConfig) : Go IndexPC :=
  pc1 <- indexStep l cfg AtEntry ;;
  pc2 <- indexStep l cfg pc1 ;;
  indexStep l cfg pc2.

(** Two calls on the record [l]; the schedule says whose step is next
    ([true]: the first call). *)
Fixpoint runSchedule (l : loc) (cfgA cfgB : SpecIndexConfig)
    (sched : list bool) (pcs : IndexPC * IndexPC) : Go (IndexPC * IndexPC) :=
  match sched with
  | [] => ret pcs
  | true :: rest =>
      pc <- indexStep l cfgA (fst pcs) ;;
      runSchedule l cfgA cfgB rest (pc, snd pcs)
  | false :: rest =>
      pc <- indexStep l cfgB (snd pcs) ;;
      runSchedule l cfgA cfgB rest (fst pcs, pc)
  end.

End Threads.

(** ** Counting and repeating *)

Definition isParse (e : Event) : bool :=
  match e with
  | EvUnmarshal _ | EvExtractSpecInfo _ => true
  | EvNewSpecIndex _ _ => false
  end.

Definition isBuild (e : Event) : bool :=
  match e with
  | EvNewSpecIndex _ _ => true
  | _ => false
  end.

(** The number of times content was parsed, and an index built. *)
Definition parses (w : Store) : nat := length (List.filter isParse (events w)).
Definition builds (w : Store) : nat := length (List.filter isBuild (events w)).

(** [n] calls in sequence, collecting what each returned. *)
Fixpoint repeatCall {A} (m : Go A) (n : nat) : Go (list A) :=
  match n with
  | O => ret []
  | S n' => bind m (fun a => bind (repeatCall m n') (fun rest => ret (a :: rest)))
  end.

(** ** Sample collaborators and stores, for the examples *)

Definition bytes (s : string) : list byte := String.list_byte_of_string s.

(** A parser that accepts every input but the one starting with [!]. *)
Definition sampleParse (d : list byte) : yaml_Node + error :=
  match d with
  | x21 :: _ => inr (ErrYAML "yaml: did not find expected node content")
  | _ => inl (YNode 1 "!!str" (String.string_of_list_byte d) [])
  end.

Definition sampleFileType (p : string) : FileExtension :=
  if String.eqb (Ext p) ".yaml" || String.eqb (Ext p) ".yml" then YAML
  else if String.eqb (Ext p) ".json" then JSON
  else UNSUPPORTED.

Definition sampleC : Collaborators :=
  {| yaml_Unmarshal := sampleParse;
     ExtractSpecInfoWithDocumentCheck := fun d _ =>
       match sampleParse d with inl n => inl (Some n) | inr e => inr e end;
     buildSpecIndex := fun r cfg =>
       {| root := r; specAbsolutePath := ""; config := cfg |};
     ExtractFileType := sampleFileType |}.

Definition sampleCfg : SpecIndexConfig :=
  {| cfgBasePath := "/specs"; cfgAllowRemote := false |}.

Definition sampleFile (content : string) : LocalFile :=
  {| filename := "a.yaml"; name := "a.yaml"; extension := YAML;
     data := Some (bytes content); fullPath := "/specs/a.yaml";
     lastModified := 0; readingErrors := []; index := None; parsed := None |}.

(** A store holding one record, at address 0. *)
Definition sampleStore (content : string) : Store :=
  set_files [sampleFile content] emptyStore.

(** A record whose store holds one parsed node and one index pointing at
    [r]; the record has the index and, when [withParsed], the parsed tree. *)
Definition sampleNode : yaml_Node := YNode 1 "!!str" "a: 1" [].

Definition indexedStore (r : option loc) (withParsed : bool) : Store :=
  {| nodes := [sampleNode];
     indexes := [{| root := r; specAbsolutePath := "/specs/a.yaml";
                    config := sampleCfg |}];
     files := [set_parsed (if withParsed then Some 0 else None)
                 (set_index (Some 0) (sampleFile "a: 1"))];
     handles := []; events := []; clock := 0 |}.

(** The record [x] of the store [w] has no tree: neither a parsed one nor an
    index with a root. *)
Definition noTree (w : Store) (x : LocalFile) : Prop :=
  parsed x = None /\
  (index x = None \/
   exists i ix, index x = Some i /\ indexes w !! i = Some ix /\ root ix = None).

(** The node heap after the root of a spec info was allocated. *)
Definition nodesAfter (rv : option yaml_Node) (w : Store) : list yaml_Node :=
  match rv with Some n => (nodes w ++ [n])%list | None => nodes w end.
Definition rootAfter (rv : option yaml_Node) (w : Store) : option loc :=
  match rv with Some _ => Some (length (nodes w)) | None => None end.

(** A directory with two documents, a note, a hidden file, and a
    subdirectory holding a document and a hidden document. *)
Definition sampleTree : Tree :=
  TDir "." None
    [TFile ".hidden.yaml"; TFile "a.yaml"; TFile "b.json"; TFile "notes.txt";
     TDir "sub" None [TFile ".secret.yaml"; TFile "c.yaml"]].

Definition sampleOpen (p : string) : File + error :=
  inl {| Stat := (Some {| ModTime := 42; Size := 4 |}, None);
         ReadAll := inl (bytes "a: 1") |}.

Definition sampleFS : FS := {| fsRoot := inl sampleTree; fsOpen := sampleOpen |}.

Definition sampleConfig : LocalFSConfig :=
  {| BaseDirectory := "/specs"; FileFilters := []; DirFS := sampleFS |}.

Definition sampleWd : string + error := inl "/home/user".

(** The file source discovery builds from [sampleConfig], as computed. *)
Definition sampleLocalFS : LocalFS :=
  {| entryPointDirectory := "/specs"; baseDirectory := "/specs";
     Files := {[ "/specs/a.yaml" := 0; "/specs/b.json" := 1;
                 "/specs/sub/.secret.yaml" := 2; "/specs/sub/c.yaml" := 3 ]};
     parseTime := 0; fsReadingErrors := []; filters := [] |}.

(** What a call returned, the store set aside. *)
Definition result {A} (o : outcome A) : option A :=
  match o with Ret a _ => Some a | Fault => None end.

(** One record and two handles on it, the first one char into the content. *)
Definition twoHandles : Store :=
  set_handles [{| f := 0; offset := 1 |}; {| f := 0; offset := 0 |}]
    (sampleStore "a: 1").

(** The records discovery allocates for [sampleConfig]. *)
Definition sampleRecord (p nm : string) (e : FileExtension) : LocalFile :=
  {| filename := p; name := nm; extension := e; data := Some (bytes "a: 1");
     fullPath := "/specs/" ++ p; lastModified := 42; readingErrors := [];
     index := None; parsed := None |}.

Definition discovered : Store :=
  {| nodes := []; indexes := [];
     files := [sampleRecord "a.yaml" "a.yaml" YAML;
               sampleRecord "b.json" "b.json" JSON;
               sampleRecord "sub/.secret.yaml" ".secret.yaml" YAML;
               sampleRecord "sub/c.yaml" "c.yaml" YAML];
     handles := []; events := []; clock := 4 |}.

(** ** What the walk visits *)

(** The arguments [io/fs.walkDir] can call the walk function with, in
    order, if nothing stops the walk. *)
Fixpoint visits (name : string) (t : Tree)
  : list (string * option DirEntry * option error) :=
  match t with
  | TFile _ => [(name, Some (treeEntry t), None)]
  | TDir _ readErr entries =>
      ((name, Some (treeEntry t), None)
       :: match readErr with
          | Some err => [(name, Some (treeEntry t), Some err)]
          | None => []
          end
       ++ flat_map (fun d1 => visits (Join name (treeName d1)) d1) entries)%list
  end.

Definition rootVisits (fsys : FS) (root : string)
  : list (string * option DirEntry * option error) :=
  match fsRoot fsys with
  | inr err => [(root, None, Some err)]
  | inl t => visits root t
  end.

(** The errors the walk can report to the walk function. *)
Definition walkErrors (fsys : FS) : list error :=
  omap (fun v => snd v) (rootVisits fsys ".").

(** The three tests of the walk function on the path of a file: another
    path than the single file the root names, a path starting with a dot, a
    path missing from a configured allow-list. *)
Definition skipped (cfg : LocalFSConfig) (p : string) : bool :=
  ((2 <? String.length (Ext (BaseDirectory cfg)))%nat
     && negb (String.eqb p (Base (BaseDirectory cfg))))
  || HasPrefix p "."
  || ((0 <? length (FileFilters cfg))%nat && negb (Contains (FileFilters cfg) p)).

Definition supported (e : FileExtension) : bool :=
  match e with YAML | JSON => true | UNSUPPORTED => false end.

(** A directory whose listing fails below the root, between two documents. *)
Definition lockedTree : Tree :=
  TDir "." None
    [TFile "a.yaml"; TDir "locked" (Some ErrPermission) [TFile "x.yaml"];
     TFile "z.yaml"].

Definition lockedConfig : LocalFSConfig :=
  {| BaseDirectory := "/specs"; FileFilters := [];
     DirFS := {| fsRoot := inl lockedTree; fsOpen := sampleOpen |} |}.

(** A directory where [b.yaml] cannot be opened, [c.yaml] cannot be read
    and the stat of [d.yaml] fails. *)
Definition flakyOpen (p : string) : File + error :=
  if String.eqb p "b.yaml" then inr ErrPermission
  else if String.eqb p "c.yaml" then
    inl {| Stat := (Some {| ModTime := 42; Size := 4 |}, None);
           ReadAll := inr (ErrIO "unexpected EOF") |}
  else if String.eqb p "d.yaml" then
    inl {| Stat := (None, Some (ErrIO "stat failed"));
           ReadAll := inl (bytes "d: 4") |}
  else sampleOpen p.

Definition flakyConfig : LocalFSConfig :=
  {| BaseDirectory := "/specs"; FileFilters := [];
     DirFS := {| fsRoot := inl (TDir "." None
                   [TFile "a.yaml"; TFile "b.yaml"; TFile "c.yaml";
                    TFile "d.yaml"; TFile "e.json"]);
                 fsOpen := flakyOpen |} |}.

(** ** Invariants of a walk *)

(** A call that returns, keeps the invariant [I] and only reports errors in
    [R]. *)
Definition keeps {St : Type} (I : St -> Store -> Prop) (R : error -> Prop)
    (o : outcome (St * option error)) : Prop :=
  exists s' e w', o = Ret (s', e) w' /\ I s' w' /\
                  (forall e0, e = Some e0 -> R e0).

(** The walk function [fn] does so when called with the arguments [v]. *)
Definition fnKeeps {St : Type}
    (fn : string -> option DirEntry -> option error -> St -> Go (St * option error))
    (I : St -> Store -> Prop) (R : error -> Prop)
    (v : string * option DirEntry * option error) : Prop :=
  forall s w, I s w -> keeps I R (fn v.1.1 v.1.2 v.2 s w).

(** ** The invariant of discovery *)

(** A record discovery made from the visit of a file that passed the tests
    of the walk function. *)
Definition discoveredFrom (C : Collaborators) (cfg : LocalFSConfig)
    (x : LocalFile) : Prop :=
  exists d, (filename x, Some d, None) ∈ rootVisits (DirFS cfg) "." /\
    IsDir d = false /\
    skipped cfg (filename x) = false /\
    supported (ExtractFileType C (filename x)) = true /\
    extension x = ExtractFileType C (filename x).

(** Every entry collected so far points to such a record, and the records
    that existed before the walk are where they were. *)
Definition discoveryInv (C : Collaborators) (cfg : LocalFSConfig) (w0 : Store)
    (s : Walk) (w : Store) : Prop :=
  (exists more, files w = (files w0 ++ more)%list) /\
  forall key l, localFiles s !! key = Some l ->
    exists x, files w !! l = Some x /\ discoveredFrom C cfg x.

(** ** The invariant of two overlapping [Index] calls *)

(** The index at [i] exists and carries the path of the record [x]. *)
Definition stamped (w : Store) (x : LocalFile) (i : loc) : Prop :=
  exists ix, indexes w !! i = Some ix /\ specAbsolutePath ix = fullPath x.

(** Where a call stands, given the cached index [c] of the record and
    whether the call has built an index ([b]). *)
Definition pcOK (w : Store) (x : LocalFile) (c : option loc) (b : bool)
    (pc : IndexPC) : Prop :=
  match pc with
  | AtEntry | AtBuild => b = false
  | AtPublish i => b = true /\ stamped w x i
  | Returned (inl i) => stamped w x i /\ c <> None
  | Returned (inr _) => False
  end.

(** The record [x] at [l] only changed in its cached index [c]; a cached
    index is stamped and was returned by one of the calls; each call built
    at most one index. *)
Definition threadsInv (l : loc) (x : LocalFile) (w0 : Store)
    (pcs : IndexPC * IndexPC) (w : Store) : Prop :=
  exists (c : option loc) (bA bB : bool),
    files w !! l = Some (set_index c x) /\
    builds w = builds w0 + Nat.b2n bA + Nat.b2n bB /\
    pcOK w x c bA pcs.1 /\ pcOK w x c bB pcs.2 /\
    (forall i, c = Some i ->
       stamped w x i /\ bA || bB = true /\
       (pcs.1 = Returned (inl i) \/ pcs.2 = Returned (inl i))).

(** What the walk function does with a file that passed its tests. *)
Definition acquired (C : Collaborators) (wd : string + error)
    (cfg : LocalFSConfig) (p : string) (s : Walk) (w : Store)
  : outcome (Walk * option error) :=
  let '(abs, absErrors) :=
    match Abs wd (Join (BaseDirectory cfg) p) with
    | inl a => (a, [])
    | inr absErr => ("", [absErr])
    end in
  match fsOpen (DirFS cfg) p with
  | inr readErr => Ret (addError readErr s, None) (tick w)
  | inl file =>
      let s1 := match (Stat file).2 with Some e => addError e s | None => s end in
      match ReadAll file with
      | inr readErr => Ret (addError readErr s1, None) (tick w)
      | inl fileData =>
          Ret (addFile abs (length (files w)) s1, None)
              (set_files
                 ((files w ++
                   [{| filename := p; name := Base p;
                      extension := ExtractFileType C p;
                      data := Some fileData; fullPath := abs;
                      lastModified := match (Stat file).1 with
                                      | Some info => ModTime info
                                      | None => clock w
                                      end;
                      readingErrors := (absErrors ++
                        match (Stat file).2 with Some e => [e] | None => [] end)%list;
                      index := None; parsed := None |}])%list)
                 (tick w))
      end
  end.

(** ** The remaining accessors of [LocalFile] *)

Section Accessors.
Local Open Scope go_scope.

(** [LocalFile.GetFileExtension] *)
Definition GetFileExtension (l : loc) : Go FileExtension :=
  x <- loadFile l ;; ret (extension x).

(** [LocalFile.GetErrors] *)
Definition GetErrors (l : loc) : Go (list error) :=
  x <- loadFile l ;; ret (readingErrors x).

(** [LocalFile.FullPath] *)
Definition FullPath (l : loc) : Go string :=
  x <- loadFile l ;; ret (fullPath x).

(** [LocalFile.Name] *)
Definition Name_ (l : loc) : Go string :=
  x <- loadFile l ;; ret (name x).

(** [LocalFile.ModTime] *)
Definition ModTime_ (l : loc) : Go Time :=
  x <- loadFile l ;; ret (lastModified x).

(** [LocalFile.IsDir], [LocalFile.Mode] and [LocalFile.Sys] do not read the
    record. *)
Definition IsDir_ (l : loc) : Go bool := ret false.
Definition Mode_ (l : loc) : Go Z := ret 0%Z.
Definition Sys_ (l : loc) : Go (option unit) := ret None.

(** A reader that calls [Read] [n] times with a buffer of [k] bytes, as
    [io.ReadAll] or [io.Copy] would, and keeps what each call delivered. *)
Fixpoint readChunks (r : loc) (k n : nat) : Go (list byte) :=
  match n with
  | O => ret []
  | S n' =>
      res <- Read r (replicate k x00) ;;
      rest <- readChunks r k n' ;;
      ret (take (Z.to_nat res.1.2) res.1.1 ++ rest)%list
  end.

End Accessors.

(** ** What discovery establishes for each entry *)

(** The key discovery files a walked path under: the absolute path, or the
    empty string when [filepath.Abs] fails. *)
Definition keyOf (wd : string + error) (cfg : LocalFSConfig) (p : string) : string :=
  match Abs wd (Join (BaseDirectory cfg) p) with
  | inl a => a
  | inr _ => ""
  end.

(** The record [x] filed under [key]: made from an eligible visit, carrying
    the bytes read from the file system, with nothing parsed or indexed. *)
Definition entryOK (C : Collaborators) (wd : string + error)
    (cfg : LocalFSConfig) (key : string) (x : LocalFile) : Prop :=
  discoveredFrom C cfg x /\
  key = keyOf wd cfg (filename x) /\
  fullPath x = key /\ name x = Base (filename x) /\
  index x = None /\ parsed x = None /\
  exists file fileData,
    fsOpen (DirFS cfg) (filename x) = inl file /\
    ReadAll file = inl fileData /\ data x = Some fileData /\
    (forall info, (Stat file).1 = Some info -> lastModified x = ModTime info) /\
    readingErrors x
      = (match Abs wd (Join (BaseDirectory cfg) (filename x)) with
         | inl _ => []
         | inr absErr => [absErr]
         end ++ match (Stat file).2 with Some e => [e] | None => [] end)%list.

(** An error of the walk: the failed open, stat or read of an eligible
    visit. *)
Definition errorOK (C : Collaborators) (cfg : LocalFSConfig) (e : error) : Prop :=
  exists p d, (p, Some d, None) ∈ rootVisits (DirFS cfg) "." /\
    IsDir d = false /\ skipped cfg p = false /\
    supported (ExtractFileType C p) = true /\
    (fsOpen (DirFS cfg) p = inr e \/
     exists file, fsOpen (DirFS cfg) p = inl file /\
       ((Stat file).2 = Some e \/ ReadAll file = inr e)).

(** The walk only appends records and advances the clock; every entry
    points to a record made by this walk, no record is filed twice, and
    every error has its file. *)
Definition discoveryFacts (C : Collaborators) (wd : string + error)
    (cfg : LocalFSConfig) (w0 : Store) (s : Walk) (w : Store) : Prop :=
  nodes w = nodes w0 /\ indexes w = indexes w0 /\ handles w = handles w0 /\
  events w = events w0 /\ clock w0 <= clock w /\
  (exists more, files w = (files w0 ++ more)%list) /\
  (forall key l, localFiles s !! key = Some l ->
     length (files w0) <= l /\
     exists x, files w !! l = Some x /\ entryOK C wd cfg key x) /\
  (forall k1 k2 l, localFiles s !! k1 = Some l ->
     localFiles s !! k2 = Some l -> k1 = k2) /\
  (forall e, e ∈ allErrors s -> errorOK C cfg e).

(** A root that names a single file of the sample directory. *)
Definition singleFileConfig : LocalFSConfig :=
  {| BaseDirectory := "/specs/a.yaml"; FileFilters := []; DirFS := sampleFS |}.

(** ** A walk without errors *)

(** The walk function called on a list of visits, one after the other. *)
Fixpoint runVisits {St : Type}
    (fn : string -> option DirEntry -> option error -> St -> Go (St * option error))
    (vs : list (string * option DirEntry * option error)) (s : St) : Go St :=
  match vs with
  | [] => ret s
  | v :: rest => bind (fn v.1.1 v.1.2 v.2 s) (fun r => runVisits fn rest r.1)
  end.

(** The walk function [fn] returns no error on the visit [v]. *)
Definition quiet {St : Type}
    (fn : string -> option DirEntry -> option error -> St -> Go (St * option error))
    (v : string * option DirEntry * option error) : Prop :=
  forall s w, exists s' w', fn v.1.1 v.1.2 v.2 s w = Ret (s', None) w'.

(** A visit of a file that passes the tests of the walk function and that
    can be opened and read. *)
Definition readable (C : Collaborators) (cfg : LocalFSConfig)
    (v : string * option DirEntry * option error) : Prop :=
  exists d file fileData, v.1.2 = Some d /\ v.2 = None /\
    IsDir d = false /\ skipped cfg v.1.1 = false /\
    supported (ExtractFileType C v.1.1) = true /\
    fsOpen (DirFS cfg) v.1.1 = inl file /\ ReadAll file = inl fileData.

(** ** The high-level discriminator (package [base])

    The types of package [low] are declared outside this file; of a
    [low.NodeReference], a [low.KeyReference] and a [low.ValueReference] the
    code reads the [Value] only. *)

Record NodeReference : Type := { nValue : string; nValueNode : option loc }.
Record KeyReference : Type := { kValue : string; kKeyNode : option loc }.
Record ValueReference : Type := { vValue : string; vValueNode : option loc }.

(** [low.Discriminator].  [lowMapping] lists the entries of its Go map in
    the order the [range] loop happens to visit them; Go fixes no order. *)
Record lowDiscriminator : Type := {
  lowPropertyName : NodeReference;
  lowMapping : list (KeyReference * ValueReference)
}.

Record Discriminator : Type := {
  PropertyName : string;
  Mapping : gmap string string;
  low : lowDiscriminator
}.

(** [NewDiscriminator(disc)]: each visited entry is assigned under the
    [Value] of its key. *)
Definition NewDiscriminator (disc : lowDiscriminator) : Discriminator :=
  {| PropertyName := nValue (lowPropertyName disc);
     Mapping := fold_left (fun mapping kv => <[kValue kv.1 := vValue kv.2]> mapping)
                  (lowMapping disc) ∅;
     low := disc |}.

(** [Discriminator.GoLow] *)
Definition GoLow (d : Discriminator) : lowDiscriminator := low d.

(** A mapping with two keys of the same [Value], told apart by their nodes. *)
Definition clashingMapping : list (KeyReference * ValueReference) :=
  [({| kValue := "cat"; kKeyNode := Some 1 |},
    {| vValue := "#/components/schemas/Cat"; vValueNode := Some 2 |});
   ({| kValue := "cat"; kKeyNode := Some 3 |},
    {| vValue := "#/components/schemas/Lion"; vValueNode := Some 4 |});
   ({| kValue := "dog"; kKeyNode := Some 5 |},
    {| vValue := "#/components/schemas/Dog"; vValueNode := Some 6 |})].

Definition sampleDiscriminator (m : list (KeyReference * ValueReference))
  : lowDiscriminator :=
  {| lowPropertyName := {| nValue := "petType"; nValueNode := Some 0 |};
     lowMapping := m |}.

(** ** Two overlapping [Index] calls on content that does not parse *)

Definition hasReturned (pc : IndexPC) : bool :=
  match pc with Returned _ => true | _ => false end.

(** Nothing is allocated or assigned; a call that has returned returned
    [err], after one parse. *)
Definition failingInv (err : error) (w0 : Store)
    (pcs : IndexPC * IndexPC) (w : Store) : Prop :=
  files w = files w0 /\ indexes w = indexes w0 /\ nodes w = nodes w0 /\
  builds w = builds w0 /\
  parses w = parses w0 + Nat.b2n (hasReturned pcs.1) + Nat.b2n (hasReturned pcs.2) /\
  (forall i, pcs.1 <> AtPublish i /\ pcs.2 <> AtPublish i) /\
  (forall r, pcs.1 = Returned r \/ pcs.2 = Returned r -> r = inr err).

(** ** Properties *)

Local Open Scope list_scope.

(** *** Stepping through the monad *)

Lemma lookup_alloc {A} (h : list A) (x : A) : (h ++ [x]) !! length h = Some x.
Proof. rewrite lookup_app_r by lia. by rewrite Nat.sub_diag. Qed.

Lemma lookup_alloc_old {A} (h : list A) (x y : A) (i : nat) :
  h !! i = Some y -> (h ++ [x]) !! i = Some y.
Proof. intros H. by apply lookup_app_l_Some. Qed.

Lemma lookup_fresh {A} (h : list A) : h !! length h = None.
Proof. apply lookup_ge_None. lia. Qed.

Lemma lookup_store {A} (h : list A) (i : nat) (x y : A) :
  h !! i = Some y -> <[i := x]> h !! i = Some x.
Proof. intros H. apply list_lookup_insert_eq. by eapply lookup_lt_Some. Qed.

Lemma insert_alloc {A} (h : list A) (x y : A) :
  <[length h := y]> (h ++ [x]) = h ++ [y].
Proof. rewrite insert_app_r_alt by lia. by rewrite Nat.sub_diag. Qed.

Ltac go_red :=
  cbv [bind ret emit loadFile storeFile loadIndex storeIndex
       loadHandle storeHandle newNode newIndex newFile newHandle
       time_Now indexRoot NewSpecIndexWithConfig] in *;
  cbn [nodes indexes files handles events clock
       set_nodes set_indexes set_files set_handles log tick] in *.

Ltac go_red_in H :=
  cbv [bind ret emit loadFile storeFile loadIndex storeIndex
       loadHandle storeHandle newNode newIndex newFile newHandle
       time_Now indexRoot NewSpecIndexWithConfig] in H;
  cbn [nodes indexes files handles events clock
       set_nodes set_indexes set_files set_handles log tick] in H.

(** Run the code in [H] as far as the other hypotheses decide it. *)
Ltac go_run_in H :=
  go_red_in H;
  repeat match type of H with
         | context [?a] =>
             match goal with
             | E : a = _ |- _ =>
                 tryif constr_eq E H then fail else (rewrite E in H; go_red_in H)
             end
         end.

(** Run the code as far as the equations among the hypotheses decide it. *)
Ltac go_run :=
  go_red;
  repeat first
    [ match goal with
      | H : ?a = _ |- context [?a] => rewrite H; go_red
      end
    | rewrite lookup_alloc; go_red
    | rewrite insert_alloc; go_red ].

Section CacheFacts.
Context (C : Collaborators).

(** C10. [GetContentAsYAMLNode] never parses when the record already has a
    tree: a cached [parsed] is returned as it is; with no [parsed] but an
    index whose root is set, that root is returned; in both cases the store
    is left as it was.  When it does parse, successfully, while the record
    has an index with a nil root, the new node becomes that index's root as
    well as the record's [parsed].  With no tree and nil content it returns an
    error and changes nothing. *)
Theorem GetContentAsYAMLNode_prefers_available_tree (l : loc) (w : Store) (x : LocalFile) :
  files w !! l = Some x ->
  (forall p, parsed x = Some p ->
     GetContentAsYAMLNode C l w = Ret (inl p) w) /\
  (forall i ix p, parsed x = None -> index x = Some i ->
     indexes w !! i = Some ix -> root ix = Some p ->
     GetContentAsYAMLNode C l w = Ret (inl p) w) /\
  (forall i ix d n, parsed x = None -> index x = Some i ->
     indexes w !! i = Some ix -> root ix = None ->
     data x = Some d -> yaml_Unmarshal C d = inl n ->
     exists w', GetContentAsYAMLNode C l w = Ret (inl (length (nodes w))) w' /\
       nodes w' = nodes w ++ [n] /\
       indexes w' = <[i := set_root (Some (length (nodes w))) ix]> (indexes w) /\
       files w' = <[l := set_parsed (Some (length (nodes w))) x]> (files w) /\
       events w' = events w ++ [EvUnmarshal d]) /\
  (forall i ix, parsed x = None ->
     index x = None \/
       (index x = Some i /\ indexes w !! i = Some ix /\ root ix = None) ->
     data x = None ->
     exists err, GetContentAsYAMLNode C l w = Ret (inr err) w).
Proof.
  intros Hl. repeat split.
  - intros p Hp. unfold GetContentAsYAMLNode. by go_run.
  - intros i ix p Hp Hi Hix Hr. unfold GetContentAsYAMLNode. by go_run.
  - intros i ix d n Hp Hi Hix Hr Hd Hn. unfold GetContentAsYAMLNode. go_run.
    eexists. split; [reflexivity|]. by cbn.
  - intros i ix Hp Hcase Hd. unfold GetContentAsYAMLNode.
    destruct Hcase as [Hi | (Hi & Hix & Hr)]; go_run; by eexists.
Qed.

End CacheFacts.

Lemma GetContentAsYAMLNode_prefers_available_tree_witness :
  GetContentAsYAMLNode sampleC 0 (indexedStore (Some 0) false)
    = Ret (inl 0) (indexedStore (Some 0) false) /\
  (exists w', GetContentAsYAMLNode sampleC 0 (indexedStore None false)
                = Ret (inl 1) w' /\
     indexes w' !! 0 ≫= root = Some 1 /\ files w' !! 0 ≫= parsed = Some 1).
Proof.
  split.
  - destruct (GetContentAsYAMLNode_prefers_available_tree sampleC 0
                (indexedStore (Some 0) false) _ eq_refl) as (_ & Hb & _).
    exact (Hb 0 _ 0 eq_refl eq_refl eq_refl eq_refl).
  - destruct (GetContentAsYAMLNode_prefers_available_tree sampleC 0
                (indexedStore None false) _ eq_refl) as (_ & _ & Hc & _).
    destruct (Hc 0 _ (bytes "a: 1") sampleNode eq_refl eq_refl eq_refl eq_refl
                eq_refl eq_refl) as (w' & Hrun & _ & Hix & Hfs & _).
    exists w'. split; [exact Hrun|]. rewrite Hix, Hfs. split; reflexivity.
Defined.


(** *** Repeated calls *)

Lemma repeatCall_fixed {A} (m : Go A) (a : A) (w : Store) (n : nat) :
  m w = Ret a w -> repeatCall m n w = Ret (replicate n a) w.
Proof.
  intros Hm. induction n as [|n IH]; [done|].
  cbn [repeatCall replicate]. unfold bind at 1. rewrite Hm.
  unfold bind. by rewrite IH.
Qed.

Lemma parses_log (e : Event) (w : Store) :
  parses (log e w) = (if isParse e then S (parses w) else parses w).
Proof.
  unfold parses, log. cbn [events]. rewrite List.filter_app, length_app.
  cbn [List.filter]. destruct (isParse e); cbn [length]; lia.
Qed.

Lemma builds_log (e : Event) (w : Store) :
  builds (log e w) = (if isBuild e then S (builds w) else builds w).
Proof.
  unfold builds, log. cbn [events]. rewrite List.filter_app, length_app.
  cbn [List.filter]. destruct (isBuild e); cbn [length]; lia.
Qed.

Section Failures.
Context (C : Collaborators).

(** A failing call only adds to the log. *)
Lemma GetContentAsYAMLNode_failure (l : loc) (w : Store) (x : LocalFile)
    (d : list byte) (err : error) :
  files w !! l = Some x -> noTree w x -> data x = Some d ->
  yaml_Unmarshal C d = inr err ->
  GetContentAsYAMLNode C l w = Ret (inr err) (log (EvUnmarshal d) w).
Proof.
  intros Hl [Hp Hcase] Hd Herr. unfold GetContentAsYAMLNode.
  destruct Hcase as [Hi | (i & ix & Hi & Hix & Hr)]; by go_run.
Qed.

Lemma Index_failure (l : loc) (cfg : SpecIndexConfig) (w : Store)
    (x : LocalFile) (err : error) :
  files w !! l = Some x -> index x = None ->
  ExtractSpecInfoWithDocumentCheck C (bytes_of (data x)) true = inr err ->
  Index C l cfg w
    = Ret (inr err) (log (EvExtractSpecInfo (bytes_of (data x))) w).
Proof. intros Hl Hi Herr. unfold Index. by go_run. Qed.

Lemma noTree_log (e : Event) (w : Store) (x : LocalFile) :
  noTree w x -> noTree (log e w) x.
Proof. by intros H. Qed.

(** C4. A failed parse, or a failed [Index], caches nothing: the call
    returns the error, and the store differs from the one before only by the
    logged attempt, so [parsed] and [index] of the record stay unset.  Every
    further call attempts the operation again: [n] calls give [n] errors and
    [n] parses, with the heaps still untouched. *)
Theorem failed_attempts_are_not_cached (l : loc) (w : Store) (x : LocalFile) :
  files w !! l = Some x ->
  (forall d err n, noTree w x -> data x = Some d ->
     yaml_Unmarshal C d = inr err ->
     exists w', repeatCall (GetContentAsYAMLNode C l) n w
                  = Ret (replicate n (inr err)) w' /\
       files w' = files w /\ indexes w' = indexes w /\ nodes w' = nodes w /\
       events w' = events w ++ replicate n (EvUnmarshal d) /\
       parses w' = parses w + n) /\
  (forall cfg err n, index x = None ->
     ExtractSpecInfoWithDocumentCheck C (bytes_of (data x)) true = inr err ->
     exists w', repeatCall (Index C l cfg) n w
                  = Ret (replicate n (inr err)) w' /\
       files w' = files w /\ indexes w' = indexes w /\ nodes w' = nodes w /\
       events w' = events w ++ replicate n (EvExtractSpecInfo (bytes_of (data x))) /\
       parses w' = parses w + n).
Proof.
  intros Hl. split.
  - intros d err n Hno Hd Herr. revert w Hl Hno.
    induction n as [|n IH]; intros w Hl Hno.
    + exists w. cbn. rewrite app_nil_r. repeat split; lia.
    + cbn [repeatCall]. unfold bind at 1.
      rewrite (GetContentAsYAMLNode_failure l w x d err Hl Hno Hd Herr).
      destruct (IH (log (EvUnmarshal d) w) Hl (noTree_log _ _ _ Hno))
        as (w' & Hrun & Hf & Hi & Hn & He & Hp).
      exists w'. unfold bind. rewrite Hrun. cbn [ret replicate].
      repeat split; try done.
      * rewrite He. cbn [log events]. by rewrite <- app_assoc.
      * rewrite Hp, parses_log. cbn. lia.
  - intros cfg err n Hi Herr. revert w Hl.
    induction n as [|n IH]; intros w Hl.
    + exists w. cbn. rewrite app_nil_r. repeat split; lia.
    + cbn [repeatCall]. unfold bind at 1.
      rewrite (Index_failure l cfg w x err Hl Hi Herr).
      destruct (IH (log (EvExtractSpecInfo (bytes_of (data x))) w) Hl)
        as (w' & Hrun & Hf & Hix & Hn & He & Hp).
      exists w'. unfold bind. rewrite Hrun. cbn [ret replicate].
      repeat split; try done.
      * rewrite He. cbn [log events]. by rewrite <- app_assoc.
      * rewrite Hp, parses_log. cbn. lia.
Qed.

End Failures.

Lemma failed_attempts_are_not_cached_witness :
  (exists w', repeatCall (GetContentAsYAMLNode sampleC 0) 3 (sampleStore "!a")
     = Ret (replicate 3 (inr (ErrYAML "yaml: did not find expected node content"))) w' /\
     files w' = files (sampleStore "!a") /\ parses w' = 3) /\
  (exists w', repeatCall (Index sampleC 0 sampleCfg) 2 (sampleStore "!a")
     = Ret (replicate 2 (inr (ErrYAML "yaml: did not find expected node content"))) w' /\
     files w' = files (sampleStore "!a") /\ parses w' = 2).
Proof.
  destruct (failed_attempts_are_not_cached sampleC 0 (sampleStore "!a") _ eq_refl)
    as [Hparse Hindex].
  split.
  - destruct (Hparse (bytes "!a") _ 3 (conj eq_refl (or_introl eq_refl))
                eq_refl eq_refl) as (w' & Hrun & Hf & _ & _ & _ & Hp).
    exists w'. repeat split; assumption.
  - destruct (Hindex sampleCfg _ 2 eq_refl eq_refl)
      as (w' & Hrun & Hf & _ & _ & _ & Hp).
    exists w'. repeat split; assumption.
Defined.

Section Memo.
Context (C : Collaborators).

Lemma GetContentAsYAMLNode_parsed (l : loc) (w : Store) (x : LocalFile) (p : loc) :
  files w !! l = Some x -> parsed x = Some p ->
  GetContentAsYAMLNode C l w = Ret (inl p) w.
Proof. intros Hl Hp. unfold GetContentAsYAMLNode. by go_run. Qed.

Lemma GetContentAsYAMLNode_indexRoot (l : loc) (w : Store) (x : LocalFile)
    (i : loc) (ix : SpecIndex) (p : loc) :
  files w !! l = Some x -> parsed x = None -> index x = Some i ->
  indexes w !! i = Some ix -> root ix = Some p ->
  GetContentAsYAMLNode C l w = Ret (inl p) w.
Proof. intros Hl Hp Hi Hix Hr. unfold GetContentAsYAMLNode. by go_run. Qed.

Lemma Index_cached (l : loc) (cfg : SpecIndexConfig) (w : Store)
    (x : LocalFile) (i : loc) :
  files w !! l = Some x -> index x = Some i ->
  Index C l cfg w = Ret (inl i) w.
Proof. intros Hl Hi. unfold Index. by go_run. Qed.

Lemma GetContentAsYAMLNode_success (l : loc) (w w1 : Store) (x : LocalFile) (p : loc) :
  files w !! l = Some x ->
  GetContentAsYAMLNode C l w = Ret (inl p) w1 ->
  GetContentAsYAMLNode C l w1 = Ret (inl p) w1 /\
  parses w1 <= S (parses w) /\
  (noTree w x -> parses w1 = S (parses w)).
Proof.
  intros Hl H. unfold GetContentAsYAMLNode in H. go_run_in H.
  destruct (parsed x) as [p0|] eqn:Hp; go_run_in H.
  { inversion H; subst. split; [by eapply GetContentAsYAMLNode_parsed|].
    split; [lia|]. intros [Hno _]. congruence. }
  assert (Hfresh : forall w' (d : list byte),
            files w' = <[l := set_parsed (Some (length (nodes w))) x]> (files w) ->
            events w' = events w ++ [EvUnmarshal d] ->
            GetContentAsYAMLNode C l w' = Ret (inl (length (nodes w))) w' /\
            parses w' <= S (parses w) /\
            (noTree w x -> parses w' = S (parses w))).
  { intros w' d Hf He. split.
    - apply (GetContentAsYAMLNode_parsed l w'
               (set_parsed (Some (length (nodes w))) x)); [|reflexivity].
      rewrite Hf. by eapply lookup_store.
    - unfold parses. rewrite He, List.filter_app, length_app. cbn. lia. }
  destruct (index x) as [i|] eqn:Hi; go_run_in H.
  - destruct (indexes w !! i) as [ix|] eqn:Hix; go_run_in H; [|done].
    destruct (root ix) as [r|] eqn:Hr; go_run_in H.
    { inversion H; subst. split; [by eapply GetContentAsYAMLNode_indexRoot|].
      split; [lia|]. intros [_ [Hno | (i' & ix' & Hi' & Hix' & Hr')]];
        congruence. }
    destruct (data x) as [d|] eqn:Hd; go_run_in H; [|done].
    destruct (yaml_Unmarshal C d) as [n|err] eqn:Hn; go_run_in H; [|done].
    inversion H; subst. by eapply (Hfresh _ d).
  - destruct (data x) as [d|] eqn:Hd; go_run_in H; [|done].
    destruct (yaml_Unmarshal C d) as [n|err] eqn:Hn; go_run_in H; [|done].
    inversion H; subst. by eapply (Hfresh _ d).
Qed.

Lemma GetContentAsYAMLNode_inv (l : loc) (w w1 : Store) (x : LocalFile) (p : loc) :
  files w !! l = Some x ->
  GetContentAsYAMLNode C l w = Ret (inl p) w1 ->
  (parsed x = Some p /\ w1 = w) \/
  (parsed x = None /\ w1 = w /\
   exists i ix, index x = Some i /\ indexes w !! i = Some ix /\ root ix = Some p) \/
  (parsed x = None /\ p = length (nodes w) /\
   exists d n, data x = Some d /\ yaml_Unmarshal C d = inl n /\
     files w1 !! l = Some (set_parsed (Some p) x) /\
     nodes w1 !! p = Some n /\
     nodes w1 = nodes w ++ [n] /\
     files w1 = <[l := set_parsed (Some p) x]> (files w) /\
     (index x = None /\ indexes w1 = indexes w \/
      exists i ix, index x = Some i /\ indexes w !! i = Some ix /\
        root ix = None /\
        indexes w1 = <[i := set_root (Some p) ix]> (indexes w)) /\
     events w1 = events w ++ [EvUnmarshal d] /\
     handles w1 = handles w /\ clock w1 = clock w).
Proof.
  intros Hl H. unfold GetContentAsYAMLNode in H. go_run_in H.
  destruct (parsed x) as [p0|] eqn:Hp; go_run_in H.
  { inversion H; subst. by left. }
  right.
  destruct (index x) as [i|] eqn:Hi; go_run_in H.
  - destruct (indexes w !! i) as [ix|] eqn:Hix; go_run_in H; [|done].
    destruct (root ix) as [r|] eqn:Hr; go_run_in H.
    { inversion H; subst. left. split; [done|]. split; [done|]. by exists i, ix. }
    destruct (data x) as [d|] eqn:Hd; go_run_in H; [|done].
    destruct (yaml_Unmarshal C d) as [n|err] eqn:Hn; go_run_in H; [|done].
    inversion H; subst. right. split; [done|]. split; [done|].
    exists d, n. cbn.
    split; [done|]. split; [done|].
    split; [by eapply lookup_store|].
    split; [by rewrite lookup_app_r, Nat.sub_diag by lia|].
    split; [done|]. split; [done|].
    split; [right; by exists i, ix|]. done.
  - destruct (data x) as [d|] eqn:Hd; go_run_in H; [|done].
    destruct (yaml_Unmarshal C d) as [n|err] eqn:Hn; go_run_in H; [|done].
    inversion H; subst. right. split; [done|]. split; [done|].
    exists d, n. cbn.
    split; [done|]. split; [done|].
    split; [by eapply lookup_store|].
    split; [by rewrite lookup_app_r, Nat.sub_diag by lia|].
    split; [done|]. split; [done|].
    split; [by left|]. done.
Qed.

End Memo.

Section Memo2.
Context (C : Collaborators).

Lemma Index_build (l : loc) (cfg : SpecIndexConfig) (w : Store) (x : LocalFile)
    (rv : option yaml_Node) :
  files w !! l = Some x -> index x = None ->
  ExtractSpecInfoWithDocumentCheck C (bytes_of (data x)) true = inl rv ->
  exists w1, Index C l cfg w = Ret (inl (length (indexes w))) w1 /\
    files w1 = <[l := set_index (Some (length (indexes w))) x]> (files w) /\
    indexes w1 = indexes w ++
      [set_specAbsolutePath (fullPath x)
         (buildSpecIndex C (rootAfter rv w) cfg)] /\
    nodes w1 = nodesAfter rv w /\
    events w1 = events w ++ [EvExtractSpecInfo (bytes_of (data x));
                             EvNewSpecIndex (rootAfter rv w) cfg].
Proof.
  intros Hl Hi Hrv. unfold Index. go_run.
  destruct rv as [n|]; go_run; eexists; (split; [reflexivity|]); cbn;
    by rewrite <- app_assoc.
Qed.

Lemma Index_success (l : loc) (cfg : SpecIndexConfig) (w w1 : Store)
    (x : LocalFile) (i : loc) :
  files w !! l = Some x ->
  Index C l cfg w = Ret (inl i) w1 ->
  (forall cfg', Index C l cfg' w1 = Ret (inl i) w1) /\
  parses w1 <= S (parses w) /\ builds w1 <= S (builds w) /\
  (index x = None -> parses w1 = S (parses w) /\ builds w1 = S (builds w)).
Proof.
  intros Hl H. destruct (index x) as [i0|] eqn:Hi.
  - rewrite (Index_cached C l cfg w x i0 Hl Hi) in H. inversion H; subst.
    split; [intros cfg'; by eapply Index_cached|].
    repeat split; (lia || done).
  - destruct (ExtractSpecInfoWithDocumentCheck C (bytes_of (data x)) true)
      as [rv|err] eqn:Hrv.
    + destruct (Index_build l cfg w x rv Hl Hi Hrv)
        as (w' & Hrun & Hf & Hix & Hn & He).
      rewrite Hrun in H. inversion H; subst.
      assert (Hp : parses w1 = S (parses w) /\ builds w1 = S (builds w)).
      { unfold parses, builds. rewrite He, !List.filter_app, !length_app.
        cbn. lia. }
      split.
      * intros cfg'.
        apply (Index_cached C l cfg' w1
                 (set_index (Some (length (indexes w))) x)); [|reflexivity].
        rewrite Hf. by eapply lookup_store.
      * repeat split; (lia || tauto).
    + unfold Index in H. go_run_in H. done.
Qed.

Lemma Index_inv (l : loc) (cfg : SpecIndexConfig) (w w1 : Store)
    (x : LocalFile) (p : loc) :
  files w !! l = Some x ->
  Index C l cfg w = Ret (inl p) w1 ->
  (index x = Some p /\ w1 = w) \/
  (index x = None /\ p = length (indexes w) /\
   exists rv,
     ExtractSpecInfoWithDocumentCheck C (bytes_of (data x)) true = inl rv /\
     files w1 !! l = Some (set_index (Some p) x) /\
     indexes w1 !! p = Some (set_specAbsolutePath (fullPath x)
                               (buildSpecIndex C (rootAfter rv w) cfg)) /\
     files w1 = <[l := set_index (Some p) x]> (files w) /\
     indexes w1 = indexes w ++
       [set_specAbsolutePath (fullPath x)
          (buildSpecIndex C (rootAfter rv w) cfg)] /\
     nodes w1 = nodesAfter rv w /\
     events w1 = events w ++ [EvExtractSpecInfo (bytes_of (data x));
                              EvNewSpecIndex (rootAfter rv w) cfg]).
Proof.
  intros Hl H. destruct (index x) as [i0|] eqn:Hi.
  - rewrite (Index_cached C l cfg w x i0 Hl Hi) in H. inversion H; subst.
    by left.
  - right.
    destruct (ExtractSpecInfoWithDocumentCheck C (bytes_of (data x)) true)
      as [rv|err] eqn:Hrv.
    + destruct (Index_build l cfg w x rv Hl Hi Hrv)
        as (w' & Hrun & Hf & Hix & Hn & He).
      rewrite Hrun in H. inversion H; subst.
      split; [done|]. split; [done|]. exists rv.
      split; [done|].
      split; [rewrite Hf; by eapply lookup_store|].
      split; [rewrite Hix; by rewrite lookup_app_r, Nat.sub_diag by lia|].
      done.
    + unfold Index in H. go_run_in H. done.
Qed.

(** C3. Calls are memoized: once [GetContentAsYAMLNode], or [Index], has
    returned a result, any number of further calls return that same address
    and leave the whole store, log included, as it is.  So [n+1] calls parse
    (and build) at most once, and exactly once when the record had nothing
    cached before the first call.  The address returned is the one the
    record caches: either it was cached already (in [parsed], in the root of
    the record's index, or in [index]) and the call changed nothing, or the
    call allocated the tree (the index) at that address, stored the address
    in the record's field, and changed nothing else but the log (and, for
    [GetContentAsYAMLNode], the empty root of the record's index). *)
Theorem calls_are_memoized (l : loc) (w w1 : Store) (x : LocalFile) (p : loc) :
  files w !! l = Some x ->
  (GetContentAsYAMLNode C l w = Ret (inl p) w1 ->
     (forall n, repeatCall (GetContentAsYAMLNode C l) n w1
                = Ret (replicate n (inl p)) w1) /\
     parses w1 <= S (parses w) /\
     (noTree w x -> parses w1 = S (parses w)) /\
     ((parsed x = Some p /\ w1 = w) \/
      (parsed x = None /\ w1 = w /\
       exists i ix, index x = Some i /\ indexes w !! i = Some ix /\
         root ix = Some p) \/
      (parsed x = None /\ p = length (nodes w) /\
       exists d n, data x = Some d /\ yaml_Unmarshal C d = inl n /\
         files w1 !! l = Some (set_parsed (Some p) x) /\
         nodes w1 !! p = Some n /\
         nodes w1 = nodes w ++ [n] /\
         files w1 = <[l := set_parsed (Some p) x]> (files w) /\
         (index x = None /\ indexes w1 = indexes w \/
          exists i ix, index x = Some i /\ indexes w !! i = Some ix /\
            root ix = None /\
            indexes w1 = <[i := set_root (Some p) ix]> (indexes w)) /\
         events w1 = events w ++ [EvUnmarshal d] /\
         handles w1 = handles w /\ clock w1 = clock w))) /\
  (forall cfg, Index C l cfg w = Ret (inl p) w1 ->
     (forall cfg' n, repeatCall (Index C l cfg') n w1
                     = Ret (replicate n (inl p)) w1) /\
     parses w1 <= S (parses w) /\ builds w1 <= S (builds w) /\
     (index x = None -> parses w1 = S (parses w) /\ builds w1 = S (builds w)) /\
     ((index x = Some p /\ w1 = w) \/
      (index x = None /\ p = length (indexes w) /\
       exists rv,
         ExtractSpecInfoWithDocumentCheck C (bytes_of (data x)) true = inl rv /\
         files w1 !! l = Some (set_index (Some p) x) /\
         indexes w1 !! p = Some (set_specAbsolutePath (fullPath x)
                                   (buildSpecIndex C (rootAfter rv w) cfg)) /\
         files w1 = <[l := set_index (Some p) x]> (files w) /\
         indexes w1 = indexes w ++
           [set_specAbsolutePath (fullPath x)
              (buildSpecIndex C (rootAfter rv w) cfg)] /\
         nodes w1 = nodesAfter rv w /\
         events w1 = events w ++ [EvExtractSpecInfo (bytes_of (data x));
                                  EvNewSpecIndex (rootAfter rv w) cfg]))).
Proof.
  intros Hl. split.
  - intros H.
    destruct (GetContentAsYAMLNode_success C l w w1 x p Hl H) as (Hagain & Hle & Hex).
    split; [intros n; by apply repeatCall_fixed|].
    split; [done|]. split; [done|].
    exact (GetContentAsYAMLNode_inv C l w w1 x p Hl H).
  - intros cfg H.
    destruct (Index_success l cfg w w1 x p Hl H) as (Hagain & Hle & Hle' & Hex).
    split; [intros cfg' n; by apply repeatCall_fixed|].
    split; [done|]. split; [done|]. split; [done|].
    exact (Index_inv l cfg w w1 x p Hl H).
Qed.

End Memo2.

Lemma calls_are_memoized_witness :
  (exists w1, GetContentAsYAMLNode sampleC 0 (sampleStore "a: 1") = Ret (inl 0) w1 /\
     repeatCall (GetContentAsYAMLNode sampleC 0) 3 w1
       = Ret [inl 0; inl 0; inl 0] w1 /\
     parses w1 = 1 /\
     parsed <$> files w1 !! 0 = Some (Some 0) /\
     nodes w1 !! 0 = Some sampleNode) /\
  (exists w1, Index sampleC 0 sampleCfg (sampleStore "a: 1") = Ret (inl 0) w1 /\
     repeatCall (Index sampleC 0 sampleCfg) 3 w1 = Ret [inl 0; inl 0; inl 0] w1 /\
     parses w1 = 1 /\ builds w1 = 1 /\
     index <$> files w1 !! 0 = Some (Some 0) /\
     (specAbsolutePath <$> indexes w1 !! 0) = Some "/specs/a.yaml").
Proof.
  split.
  - eexists. split; [vm_compute; reflexivity|].
    match goal with |- repeatCall _ _ ?w1 = _ /\ _ =>
      destruct (calls_are_memoized sampleC 0 (sampleStore "a: 1") w1 _ 0 eq_refl)
        as [Hparse _] end.
    destruct (Hparse eq_refl) as (Hn & _ & Hex & Hinv).
    split; [exact (Hn 3)|].
    split; [exact (Hex (conj eq_refl (or_introl eq_refl)))|].
    destruct Hinv as [[Hc _] | [(_ & _ & i & ix & Hc & _) |
      (_ & _ & d & n & Hd & Hu & Hf & Hnode & _)]]; [discriminate Hc..|].
    split; [exact (f_equal (fmap parsed) Hf)|].
    injection Hd as <-. injection Hu as <-. exact Hnode.
  - eexists. split; [vm_compute; reflexivity|].
    match goal with |- repeatCall _ _ ?w1 = _ /\ _ =>
      destruct (calls_are_memoized sampleC 0 (sampleStore "a: 1") w1 _ 0 eq_refl)
        as [_ Hindex] end.
    destruct (Hindex sampleCfg eq_refl) as (Hn & _ & _ & Hex & Hinv).
    split; [exact (Hn sampleCfg 3)|].
    destruct (Hex eq_refl) as [Hp Hb].
    split; [exact Hp|]. split; [exact Hb|].
    destruct Hinv as [[Hc _] | (_ & _ & rv & _ & Hf & Hix & _)];
      [discriminate Hc|].
    split; [exact (f_equal (fmap index) Hf)|].
    exact (f_equal (fmap specAbsolutePath) Hix).
Defined.

(** *** [Index] and the parsed tree *)

(** C1, as stated, fails: after [GetContentAsYAMLNode] parsed the content
    of a record, [Index] parses the same content again; the root of the index
    is a second node, not the record's parsed tree. *)
Lemma Index_parses_again_after_GetContentAsYAMLNode :
  exists w1 w2,
    GetContentAsYAMLNode sampleC 0 (sampleStore "a: 1") = Ret (inl 0) w1 /\
    Index sampleC 0 sampleCfg w1 = Ret (inl 0) w2 /\
    parses w1 = 1 /\ parses w2 = 2 /\
    events w2 = [EvUnmarshal (bytes "a: 1"); EvExtractSpecInfo (bytes "a: 1");
                 EvNewSpecIndex (Some 1) sampleCfg] /\
    files w2 !! 0 ≫= parsed = Some 0 /\
    indexes w2 !! 0 ≫= root = Some 1.
Proof.
  do 2 eexists. split; [vm_compute; reflexivity|].
  split; [vm_compute; reflexivity|]. repeat split.
Qed.

Section IndexParses.
Context (C : Collaborators).

(** C1, amended. [Index] does not look at the record's parsed tree: on a
    record without a cached index it parses the content, whether or not a
    tree was parsed before, and leaves [parsed] as it was.  The sharing goes
    the other way: once [Index] has built an index whose root is set, a
    record without a parsed tree gets that root from [GetContentAsYAMLNode],
    with no further parse. *)
Theorem Index_parses_unless_index_cached (l : loc) (cfg : SpecIndexConfig)
    (w : Store) (x : LocalFile) (rv : option yaml_Node) :
  files w !! l = Some x -> index x = None ->
  ExtractSpecInfoWithDocumentCheck C (bytes_of (data x)) true = inl rv ->
  exists i w1, Index C l cfg w = Ret (inl i) w1 /\
    parses w1 = S (parses w) /\
    files w1 !! l = Some (set_index (Some i) x) /\
    (forall ix r, parsed x = None -> indexes w1 !! i = Some ix ->
       root ix = Some r ->
       GetContentAsYAMLNode C l w1 = Ret (inl r) w1).
Proof.
  intros Hl Hi Hrv.
  destruct (Index_build C l cfg w x rv Hl Hi Hrv)
    as (w1 & Hrun & Hf & Hix & Hn & He).
  exists (length (indexes w)), w1. split; [exact Hrun|].
  assert (Hl1 : files w1 !! l = Some (set_index (Some (length (indexes w))) x)).
  { rewrite Hf. by eapply lookup_store. }
  repeat split; [|exact Hl1|].
  - unfold parses. rewrite He, List.filter_app, length_app. cbn. lia.
  - intros ix r Hp Hlook Hr.
    by eapply (GetContentAsYAMLNode_indexRoot C l w1 _ _ ix r Hl1).
Qed.

End IndexParses.

Lemma Index_parses_unless_index_cached_witness :
  exists i w1,
    Index sampleC 0 sampleCfg (set_files [set_parsed (Some 0) (sampleFile "a: 1")]
                                 (set_nodes [sampleNode] emptyStore))
      = Ret (inl i) w1 /\
    parses w1 = 1 /\
    files w1 !! 0 = Some (set_index (Some i) (set_parsed (Some 0) (sampleFile "a: 1"))).
Proof.
  destruct (Index_parses_unless_index_cached sampleC 0 sampleCfg
              (set_files [set_parsed (Some 0) (sampleFile "a: 1")]
                 (set_nodes [sampleNode] emptyStore))
              _ (Some sampleNode) eq_refl eq_refl eq_refl)
    as (i & w1 & Hrun & Hp & Hf & _).
  exists i, w1. repeat split; assumption.
Defined.

(** *** Handles *)

Section HandleFacts.
Context (wd : string + error).

Lemma Open_found (l : LocalFS) (name k : string) (x : loc) (w : Store) :
  resolve wd l name = inl k -> Files l !! k = Some x ->
  Open wd l name w
    = Ret (inl (length (handles w)))
          (set_handles (handles w ++ [{| f := x; offset := 0 |}]) w).
Proof. intros Hk Hx. unfold Open. rewrite Hk, Hx. reflexivity. Qed.

Lemma Open_missing (l : LocalFS) (name k : string) (w : Store) :
  resolve wd l name = inl k -> Files l !! k = None ->
  Open wd l name w = Ret (inr (PathError "open" k ErrNotExist)) w.
Proof. intros Hk Hx. unfold Open. rewrite Hk, Hx. reflexivity. Qed.

Lemma Open_inv (l : LocalFS) (name : string) (w w' : Store) (r : loc) :
  Open wd l name w = Ret (inl r) w' ->
  exists k x, resolve wd l name = inl k /\ Files l !! k = Some x /\
    r = length (handles w) /\
    w' = set_handles (handles w ++ [{| f := x; offset := 0 |}]) w.
Proof.
  unfold Open. destruct (resolve wd l name) as [k|e]; [|by intros H; inversion H].
  destruct (Files l !! k) as [x|] eqn:Hx; intros H; inversion H; subst.
  by exists k, x.
Qed.

Lemma Read_local (r : loc) (b : list byte) (w1 w2 : Store) :
  handles w1 !! r = handles w2 !! r -> files w1 = files w2 ->
  result (Read r b w1) = result (Read r b w2).
Proof.
  intros Hh Hf. unfold Read, GetContent, GetFullPath, copy. go_red.
  rewrite Hh. destruct (handles w2 !! r) as [h|] eqn:Hr; [|done].
  rewrite Hf. destruct (files w2 !! f h) as [x|]; [|done].
  destruct (_ <=? _)%Z; [done|]. destruct (_ <? _)%Z.
  - rewrite Hf. by destruct (files w2 !! f h).
  - by rewrite Hh, Hr.
Qed.

Lemma lookup_alloc_ne {A} (h : list A) (x : A) (i : nat) :
  i <> length h -> (h ++ [x]) !! i = h !! i.
Proof.
  intros Hne. destruct (decide (i < length h)) as [Hlt|Hge].
  - by apply lookup_app_l.
  - rewrite (lookup_ge_None_2 h i) by lia.
    apply lookup_ge_None_2. rewrite length_app. cbn. lia.
Qed.

(** C6. Whenever the resolved name has an entry, [Open] succeeds and
    returns a handle that did not exist before, on the entry's record, with
    offset 0; it leaves every other handle and the records alone, so what
    the other handles read is not affected; opening again gives yet another
    handle, at offset 0, next to the first.  [Read] on a handle whose offset
    has reached the content length reports [EOF]; on a negative offset it
    reports an invalid argument; otherwise it copies
    [min(len(b), len(content) - offset)] bytes of the content from the
    offset on into [b], returns that count and adds it to the offset.  It
    changes no other handle, so what another handle reads next is what it
    would have read without this call. *)
Theorem handles_have_private_cursors :
  (forall (l : LocalFS) (name k : string) (x : loc) (w : Store),
     resolve wd l name = inl k -> Files l !! k = Some x ->
     exists r' w', Open wd l name w = Ret (inl r') w' /\
       handles w !! r' = None /\
       handles w' !! r' = Some {| f := x; offset := 0 |} /\
       (forall r, r <> r' -> handles w' !! r = handles w !! r) /\
       files w' = files w /\ nodes w' = nodes w /\ indexes w' = indexes w /\
       (forall r b, r <> r' -> result (Read r b w') = result (Read r b w)) /\
       exists r'' w'', Open wd l name w' = Ret (inl r'') w'' /\ r'' <> r' /\
         handles w'' !! r'' = Some {| f := x; offset := 0 |} /\
         handles w'' !! r' = Some {| f := x; offset := 0 |}) /\
  (forall (w : Store) (r : loc) (h : localRolodexFile) (x : LocalFile)
          (b : list byte),
   handles w !! r = Some h -> files w !! f h = Some x ->
   (forall l name r' w', Open wd l name w = Ret (inl r') w' ->
      handles w !! r' = None /\
      (exists y, handles w' !! r' = Some {| f := y; offset := 0 |}) /\
      handles w' !! r = Some h /\ files w' = files w) /\
   ((Z.of_nat (length (bytes_of (data x))) <= offset h)%Z ->
      Read r b w = Ret (b, 0%Z, Some EOF) w) /\
   ((offset h < 0)%Z ->
      Read r b w = Ret (b, 0%Z, Some (PathError "read" (fullPath x) ErrInvalid)) w) /\
   ((0 <= offset h < Z.of_nat (length (bytes_of (data x))))%Z ->
      let src := drop (Z.to_nat (offset h)) (bytes_of (data x)) in
      let n := min (length b) (length src) in
      exists w', Read r b w = Ret (take n src ++ drop n b, Z.of_nat n, None) w' /\
        handles w'
          = <[r := {| f := f h; offset := (offset h + Z.of_nat n)%Z |}]> (handles w) /\
        files w' = files w /\
        (forall r' b', r' <> r ->
           handles w' !! r' = handles w !! r' /\
           result (Read r' b' w') = result (Read r' b' w)))).
Proof.
  split.
  - intros l name k x w Hk Hx.
    eexists _, _. split; [by apply (Open_found l name k)|].
    split; [apply lookup_fresh|]. cbn [handles files nodes indexes set_handles].
    split; [apply lookup_alloc|].
    split; [intros r Hne; by apply lookup_alloc_ne|].
    do 3 (split; [done|]).
    split.
    { intros r b Hne. apply Read_local; [|done].
      cbn [handles set_handles]. by apply lookup_alloc_ne. }
    eexists _, _. split; [by apply (Open_found l name k)|].
    cbn [handles set_handles]. rewrite length_app. cbn [length].
    split; [lia|]. split.
    + replace (length (handles w) + 1)
        with (length (handles w ++ [{| f := x; offset := 0 |}]))
        by (rewrite length_app; cbn; lia).
      apply lookup_alloc.
    + apply lookup_alloc_old, lookup_alloc.
  - intros w r h x b Hr Hx. repeat split.
    + destruct (Open_inv _ _ _ _ _ H) as (k & y & _ & _ & -> & _).
      apply lookup_fresh.
    + destruct (Open_inv _ _ _ _ _ H) as (k & y & _ & _ & -> & ->).
      exists y. cbn. apply lookup_alloc.
    + destruct (Open_inv _ _ _ _ _ H) as (k & y & _ & _ & -> & ->).
      cbn. by eapply lookup_alloc_old.
    + by destruct (Open_inv _ _ _ _ _ H) as (k & y & _ & _ & -> & ->).
    + intros Hend. unfold Read, GetContent, GetFullPath. go_run.
      destruct (Z.leb_spec (Z.of_nat (length (bytes_of (data x)))) (offset h));
        [done|lia].
    + intros Hneg. unfold Read, GetContent, GetFullPath. go_run.
      destruct (Z.leb_spec (Z.of_nat (length (bytes_of (data x)))) (offset h));
        [lia|].
      destruct (Z.ltb_spec (offset h) 0); [by go_run|lia].
    + intros Hin src n. unfold Read, GetContent, GetFullPath, copy. go_run.
      destruct (Z.leb_spec (Z.of_nat (length (bytes_of (data x)))) (offset h));
        [lia|].
      destruct (Z.ltb_spec (offset h) 0); [lia|]. go_run.
      eexists. split; [reflexivity|]. do 2 (split; [reflexivity|]).
      intros r' b' Hne. split.
      * cbn [handles set_handles]. by apply list_lookup_insert_ne.
      * apply Read_local; [|reflexivity].
        cbn [handles set_handles]. by apply list_lookup_insert_ne.
Qed.

End HandleFacts.

Lemma handles_have_private_cursors_witness :
  exists w1 w2 w3,
    Open sampleWd sampleLocalFS "a.yaml" discovered = Ret (inl 0) w1 /\
    Open sampleWd sampleLocalFS "a.yaml" w1 = Ret (inl 1) w2 /\
    Read 0 (bytes "...") w2 = Ret (bytes "a: ", 3%Z, None) w3 /\
    handles w3 !! 0 = Some {| f := 0; offset := 3 |} /\
    handles w3 !! 1 = Some {| f := 0; offset := 0 |}.
Proof.
  destruct (handles_have_private_cursors sampleWd) as [Hopen Hread].
  destruct (Hopen sampleLocalFS "a.yaml" "/specs/a.yaml" 0 discovered
              eq_refl eq_refl)
    as (r' & w1 & Hrun1 & _ & _ & _ & _ & _ & _ & _ & r'' & w2 & Hrun2 & _ & H2 & H1).
  assert (Hc1 : Open sampleWd sampleLocalFS "a.yaml" discovered
                = Ret (inl 0) (set_handles [{| f := 0; offset := 0 |}] discovered))
    by reflexivity.
  rewrite Hc1 in Hrun1. injection Hrun1 as <- <-.
  assert (Hc2 : Open sampleWd sampleLocalFS "a.yaml"
                  (set_handles [{| f := 0; offset := 0 |}] discovered)
                = Ret (inl 1)
                    (set_handles [{| f := 0; offset := 0 |};
                                  {| f := 0; offset := 0 |}] discovered))
    by reflexivity.
  rewrite Hc2 in Hrun2. injection Hrun2 as <- <-.
  destruct (Hread (set_handles [{| f := 0; offset := 0 |};
                                {| f := 0; offset := 0 |}] discovered)
              0 _ _ (bytes "...") eq_refl eq_refl) as (_ & _ & _ & Hmid).
  destruct Hmid as (w3 & Hrun3 & Hh3 & _ & Hother); [cbn; lia|].
  eexists _, _, w3. split; [exact Hc1|]. split; [exact Hc2|].
  split; [exact Hrun3|]. split.
  - rewrite Hh3. reflexivity.
  - destruct (Hother 1 [] ltac:(discriminate)) as [Hh _]. exact Hh.
Defined.

(** *** Addressing *)

(** Discovery on the sample directory. *)
Lemma discovery_sample :
  NewLocalFSWithConfig sampleC sampleWd sampleConfig emptyStore
    = Ret (inl sampleLocalFS) discovered.
Proof. vm_compute. reflexivity. Qed.

Lemma IsAbs_nonempty (p : string) : IsAbs p = true -> String.eqb p "" = false.
Proof. by destruct p. Qed.

Lemma IsAbs_app (p q : string) : IsAbs p = true -> IsAbs (p ++ q)%string = true.
Proof.
  destruct p as [|c p]; [done|]. unfold IsAbs.
  change (String c p ++ q)%string with (String c (p ++ q)%string).
  cbn [HasPrefix]. done.
Qed.

Lemma IsAbs_Clean (p : string) : IsAbs p = true -> IsAbs (Clean p) = true.
Proof.
  intros Hp. unfold Clean. rewrite (IsAbs_nonempty p Hp), Hp. reflexivity.
Qed.

Lemma Join_absolute (a b : string) :
  IsAbs a = true ->
  Join a b = Clean (a ++ "/" ++ b)%string /\ IsAbs (Join a b) = true.
Proof.
  intros Ha. unfold Join. rewrite (IsAbs_nonempty a Ha). cbn [negb].
  split; [done|]. by apply IsAbs_Clean, IsAbs_app.
Qed.

(** C5, as stated, fails: an absolute name is looked up as it is written.
    [/specs/./a.yaml] and [/specs/a.yaml] normalize to the same absolute
    path, the key of a discovered record; [Open] finds the record under the
    second name and reports not-exist for the first. *)
Lemma Open_takes_absolute_names_verbatim :
  Abs sampleWd "/specs/./a.yaml" = inl "/specs/a.yaml" /\
  Abs sampleWd "/specs/a.yaml" = inl "/specs/a.yaml" /\
  Files sampleLocalFS !! "/specs/a.yaml" = Some 0 /\
  Open sampleWd sampleLocalFS "/specs/a.yaml" discovered
    = Ret (inl 0) (set_handles [{| f := 0; offset := 0 |}] discovered) /\
  Open sampleWd sampleLocalFS "/specs/./a.yaml" discovered
    = Ret (inr (PathError "open" "/specs/./a.yaml" ErrNotExist)) discovered.
Proof. repeat split; vm_compute; reflexivity. Qed.

Section Addressing.
Context (wd : string + error).

(** C5, amended. On a file source whose base directory is absolute (as
    discovery leaves it), [Open] looks up a name that is not absolute under
    the cleaned join of the base directory and the name, which resolves [.]
    and [..], and an absolute name under the name exactly as given, without
    normalizing it.  If the key has a record, the result is a new handle on
    that record; if not, it is a [PathError] for [open] with the key as path
    that wraps [ErrNotExist].  Two names with the same key get the same
    result, so handles on the same record. *)
Theorem Open_resolves_relative_names (l : LocalFS) (name : string) (w : Store) :
  IsAbs (baseDirectory l) = true ->
  let k := if IsAbs name then name
           else Clean (Clean (baseDirectory l ++ "/" ++ name)%string) in
  resolve wd l name = inl k /\
  (forall x, Files l !! k = Some x ->
     Open wd l name w
       = Ret (inl (length (handles w)))
             (set_handles (handles w ++ [{| f := x; offset := 0 |}]) w)) /\
  (Files l !! k = None ->
     Open wd l name w = Ret (inr (PathError "open" k ErrNotExist)) w /\
     errors_Is (PathError "open" k ErrNotExist) ErrNotExist = true) /\
  (forall name', resolve wd l name' = inl k ->
     Open wd l name' w = Open wd l name w).
Proof.
  intros Hbase k.
  assert (Hk : resolve wd l name = inl k).
  { unfold resolve, k. destruct (IsAbs name) eqn:Hn; cbn [negb]; [done|].
    destruct (Join_absolute (baseDirectory l) name Hbase) as [HJ HA].
    unfold Abs. by rewrite HA, HJ. }
  split; [exact Hk|]. split; [|split].
  - intros x Hx. by apply (Open_found wd l name k).
  - intros Hx. split; [by apply (Open_missing wd l name k)|reflexivity].
  - intros name' Hk'. unfold Open. by rewrite Hk, Hk'.
Qed.

End Addressing.

Lemma Open_resolves_relative_names_witness :
  resolve sampleWd sampleLocalFS "sub/../x/./../a.yaml" = inl "/specs/a.yaml" /\
  Open sampleWd sampleLocalFS "sub/../x/./../a.yaml" discovered
    = Ret (inl 0) (set_handles [{| f := 0; offset := 0 |}] discovered) /\
  Open sampleWd sampleLocalFS "a.yaml" discovered
    = Open sampleWd sampleLocalFS "sub/../x/./../a.yaml" discovered /\
  Open sampleWd sampleLocalFS "/specs/a.yaml" discovered
    = Open sampleWd sampleLocalFS "sub/../x/./../a.yaml" discovered.
Proof.
  destruct (Open_resolves_relative_names sampleWd sampleLocalFS
              "sub/../x/./../a.yaml" discovered eq_refl)
    as (Hk & Hfound & _ & Hsame).
  split; [exact Hk|]. split; [exact (Hfound 0 eq_refl)|].
  split; [exact (Hsame "a.yaml" eq_refl)|exact (Hsame "/specs/a.yaml" eq_refl)].
Defined.

(** *** The walk *)

Lemma Tree_ind_nested (P : Tree -> Prop) :
  (forall nm, P (TFile nm)) ->
  (forall nm readErr entries, Forall P entries -> P (TDir nm readErr entries)) ->
  forall t, P t.
Proof.
  intros Hfile Hdir. fix IH 1. intros [nm|nm readErr entries].
  - apply Hfile.
  - apply Hdir. induction entries as [|d1 rest IHrest]; constructor.
    + apply IH.
    + exact IHrest.
Qed.

Section WalkInvariant.
Context {St : Type}.
Context (fn : string -> option DirEntry -> option error -> St -> Go (St * option error)).
Context (I : St -> Store -> Prop) (R : error -> Prop).

Local Abbreviation keeps := (keeps I R).
Local Abbreviation fnKeeps := (fnKeeps fn I R).

Lemma keeps_filter_skip (s : St) (err : error) (w : Store) :
  I s w -> R err ->
  keeps (Ret (s, if isSkipDir err then None else Some err) w).
Proof.
  intros HI HR. exists s, (if isSkipDir err then None else Some err), w.
  repeat split; [done|]. intros e0. destruct (isSkipDir err); congruence.
Qed.

Lemma walkDir_keeps (t : Tree) :
  forall name s w,
    Forall fnKeeps (visits name t) -> I s w -> keeps (walkDir fn name t s w).
Proof.
  induction t as [nm|nm readErr entries IHentries] using Tree_ind_nested;
    intros name s w Hv HI.
  - cbn in Hv. apply Forall_cons in Hv as [Hv _]. exact (Hv s w HI).
  - cbn [visits] in Hv. apply Forall_cons in Hv as [Hfirst Hv].
    apply Forall_app in Hv as [Hsecond Hrest].
    cbn [walkDir]. unfold bind at 1.
    destruct (Hfirst s w HI) as (s1 & e1 & w1 & Heq & HI1 & HR1).
    cbn [fst snd] in Heq. rewrite Heq. clear Heq.
    destruct e1 as [err|]; [by apply keeps_filter_skip; auto|].
    unfold bind at 1.
    assert (Hsnd : keeps (match readErr with
                          | Some err =>
                              fn name (Some (treeEntry (TDir nm readErr entries)))
                                 (Some err) s1
                          | None => ret (s1, None)
                          end w1)).
    { destruct readErr as [err|].
      - apply Forall_cons in Hsecond as [Hsecond _]. exact (Hsecond s1 w1 HI1).
      - exists s1, None, w1. by repeat split. }
    destruct Hsnd as (s2 & e2 & w2 & Heq & HI2 & HR2). rewrite Heq. clear Heq.
    destruct e2 as [err|]; [by apply keeps_filter_skip; auto|].
    clear Hfirst Hsecond HI HI1 HR1 HR2. revert s2 w2 HI2.
    induction entries as [|d1 rest IHrest]; intros s2 w2 HI2.
    + exists s2, None, w2. by repeat split.
    + cbn [flat_map] in Hrest. apply Forall_app in Hrest as [Hd1 Hrest].
      apply Forall_cons in IHentries as [IHd1 IHentries].
      unfold bind at 1.
      destruct (IHd1 _ s2 w2 Hd1 HI2) as (s3 & e3 & w3 & Heq & HI3 & HR3).
      rewrite Heq. clear Heq.
      destruct e3 as [err|]; [by apply keeps_filter_skip; auto|].
      by apply IHrest.
Qed.

Lemma WalkDir_keeps (fsys : FS) (root : string) (s : St) (w : Store) :
  Forall fnKeeps (rootVisits fsys root) -> I s w ->
  keeps (WalkDir fn fsys root s w).
Proof.
  intros Hv HI. unfold WalkDir, rootVisits in *. unfold bind.
  assert (Hin : keeps (match fsRoot fsys with
                       | inl t => walkDir fn root t s
                       | inr err => fn root None (Some err) s
                       end w)).
  { destruct (fsRoot fsys) as [t|err].
    - by apply walkDir_keeps.
    - apply Forall_cons in Hv as [Hv _]. exact (Hv s w HI). }
  destruct Hin as (s' & e & w' & Heq & HI' & HR). rewrite Heq. clear Heq.
  destruct e as [err|]; [|exists s', None, w'; by repeat split].
  exists s', (if isSkipDir err || isSkipAll err then None else Some err), w'.
  repeat split; [done|]. intros e0.
  destruct (isSkipDir err || isSkipAll err); [done|].
  intros [= <-]. by apply HR.
Qed.

End WalkInvariant.

(** *** The walk function *)

Section WalkFn.
Context (C : Collaborators) (wd : string + error) (cfg : LocalFSConfig).

Local Abbreviation fn :=
  (walkFn C wd cfg (Ext (BaseDirectory cfg)) (Base (BaseDirectory cfg))).

Lemma walkFn_error (p : string) (d : option DirEntry) (e : error)
    (s : Walk) (w : Store) :
  fn p d (Some e) s w = Ret (s, Some e) w.
Proof. reflexivity. Qed.

Lemma walkFn_not_a_file (p : string) (d : option DirEntry) (s : Walk) (w : Store) :
  match d with None => true | Some d => IsDir d end = true ->
  fn p d None s w = Ret (s, None) w.
Proof. intros Hd. unfold walkFn. by rewrite Hd. Qed.

Lemma skipped_false (p : string) :
  skipped cfg p = false ->
  (2 <? String.length (Ext (BaseDirectory cfg)))%nat
    && negb (String.eqb p (Base (BaseDirectory cfg))) = false /\
  HasPrefix p "." = false /\
  (0 <? length (FileFilters cfg))%nat && negb (Contains (FileFilters cfg) p) = false.
Proof.
  unfold skipped. intros H.
  apply orb_false_elim in H as [H H3]. apply orb_false_elim in H as [H1 H2].
  done.
Qed.

Lemma walkFn_skipped (p : string) (d : DirEntry) (s : Walk) (w : Store) :
  skipped cfg p = true -> fn p (Some d) None s w = Ret (s, None) w.
Proof.
  unfold skipped, walkFn. intros H. destruct (IsDir d); [done|].
  destruct (_ && _); [done|]. destruct (HasPrefix p "."); [done|].
  rewrite !orb_false_l in H. by rewrite H.
Qed.

Lemma walkFn_unsupported (p : string) (d : DirEntry) (s : Walk) (w : Store) :
  supported (ExtractFileType C p) = false -> fn p (Some d) None s w = Ret (s, None) w.
Proof.
  unfold walkFn. intros H. destruct (IsDir d); [done|].
  destruct (_ && _); [done|]. destruct (HasPrefix p "."); [done|].
  destruct (_ && _); [done|].
  destruct (Abs wd _); by destruct (ExtractFileType C p).
Qed.

Lemma walkFn_candidate (p : string) (d : DirEntry) (s : Walk) (w : Store) :
  IsDir d = false -> skipped cfg p = false ->
  supported (ExtractFileType C p) = true ->
  fn p (Some d) None s w = acquired C wd cfg p s w.
Proof.
  intros Hd Hs Ht. destruct (skipped_false p Hs) as (H1 & H2 & H3).
  unfold walkFn, acquired. rewrite Hd, H1, H2, H3.
  destruct (Abs wd _) as [a|absErr];
    destruct (ExtractFileType C p); try discriminate; go_red;
    destruct (fsOpen (DirFS cfg) p) as [[[st se] rd]|e]; try reflexivity;
    cbn [Stat ReadAll fst snd]; destruct se, rd; cbn; try reflexivity;
    by rewrite ?app_nil_r.
Qed.

End WalkFn.

Section DiscoveryInvariant.
Context (C : Collaborators) (wd : string + error) (cfg : LocalFSConfig).
Context (w0 : Store).

Local Abbreviation fn :=
  (walkFn C wd cfg (Ext (BaseDirectory cfg)) (Base (BaseDirectory cfg))).
Local Abbreviation Inv := (discoveryInv C cfg w0).
Local Abbreviation Reported := (fun e : error => e ∈ walkErrors (DirFS cfg)).

Lemma discoveryInv_same (s s' : Walk) (w w' : Store) :
  localFiles s' = localFiles s -> files w' = files w -> Inv s w -> Inv s' w'.
Proof. unfold discoveryInv. intros -> ->. done. Qed.

Lemma localFiles_stat_error (se : option error) (s : Walk) :
  localFiles (match se with Some e => addError e s | None => s end)
    = localFiles s.
Proof. by destruct se. Qed.

Lemma discoveryInv_add (s s1 : Walk) (w w1 : Store) (abs : string) (x : LocalFile) :
  localFiles s1 = localFiles s -> files w1 = files w ->
  discoveredFrom C cfg x -> Inv s w ->
  Inv (addFile abs (length (files w)) s1) (set_files (files w ++ [x]) w1).
Proof.
  intros Hs Hw Hx [[more Hmore] Hentries]. split.
  - exists (more ++ [x]). cbn. by rewrite Hmore, app_assoc.
  - intros key l. cbn. rewrite Hs. intros Hl.
    apply lookup_insert_Some in Hl as [[<- <-]|[Hne Hl]].
    + exists x. split; [apply lookup_alloc|done].
    + destruct (Hentries key l Hl) as (x0 & Hx0 & Hgood).
      exists x0. split; [by apply lookup_alloc_old|done].
Qed.

Lemma walkFn_keeps (v : string * option DirEntry * option error) :
  v ∈ rootVisits (DirFS cfg) "." -> fnKeeps fn Inv Reported v.
Proof.
  destruct v as [[p d] err]. intros Hin s w HI. cbn [fst snd].
  assert (Hskip : keeps Inv Reported (Ret (s, None) w)).
  { exists s, None, w. split; [done|]. by split. }
  destruct err as [e|].
  { rewrite walkFn_error. exists s, (Some e), w. split; [done|]. split; [done|].
    intros e0 [= <-]. unfold walkErrors. apply list_elem_of_omap.
    by exists (p, d, Some e). }
  destruct d as [d|]; [|by rewrite walkFn_not_a_file].
  destruct (IsDir d) eqn:Hd; [by rewrite walkFn_not_a_file|].
  destruct (skipped cfg p) eqn:Hs; [by rewrite walkFn_skipped|].
  destruct (supported (ExtractFileType C p)) eqn:Ht;
    [|by rewrite walkFn_unsupported].
  rewrite walkFn_candidate by done. unfold acquired.
  destruct (match Abs wd (Join (BaseDirectory cfg) p) with
            | inl a => (a, [])
            | inr absErr => ("", [absErr])
            end) as [abs absErrors].
  destruct (fsOpen (DirFS cfg) p) as [file|e].
  - destruct (ReadAll file) as [fileData|e].
    + eexists _, None, _. split; [reflexivity|]. split; [|done].
      apply (discoveryInv_add s _ w (tick w));
        [apply localFiles_stat_error|done| |done].
      exists d. by repeat split.
    + eexists _, None, _. split; [reflexivity|]. split; [|done].
      eapply discoveryInv_same; [| |exact HI]; [|done].
      cbn. apply localFiles_stat_error.
  - eexists _, None, _. split; [reflexivity|]. split; [|done].
    by eapply discoveryInv_same; [| |exact HI].
Qed.

(** Construction always returns; it fails only with the error of [Abs] or
    with an error the walk reported; what it returns satisfies the invariant. *)
Lemma NewLocalFSWithConfig_cases (w : Store) :
  files w = files w0 ->
  exists r w', NewLocalFSWithConfig C wd cfg w = Ret r w' /\
    match r with
    | inr e =>
        Abs wd (BaseDirectory cfg) = inr e \/ e ∈ walkErrors (DirFS cfg)
    | inl l =>
        (exists s, Inv s w' /\ Files l = localFiles s /\
           fsReadingErrors l = allErrors s) /\
        Abs wd (BaseDirectory cfg) = inl (baseDirectory l)
    end.
Proof.
  intros Hw. unfold NewLocalFSWithConfig.
  destruct (Abs wd (BaseDirectory cfg)) as [absBaseDir|e];
    [|exists (inr e), w; split; [done|by left]].
  unfold bind.
  destruct (WalkDir_keeps fn Inv Reported (DirFS cfg) "."
              {| localFiles := ∅; allErrors := [] |} w)
    as (s & e & w' & Heq & HI & HR).
  - apply Forall_forall. intros v Hv. by apply walkFn_keeps.
  - split; [exists []; by rewrite app_nil_r|]. intros key l. cbn.
    by rewrite lookup_empty.
  - rewrite Heq. destruct e as [e|].
    + exists (inr e), w'. split; [done|]. right. by apply HR.
    + eexists (inl _), w'. split; [reflexivity|]. cbn. split; [|done].
      by exists s.
Qed.

End DiscoveryInvariant.

(** What discovery leaves as base directory is absolute, as [Open] needs
    it, when the working directory is. *)
Lemma Abs_absolute (wd : string + error) (p a : string) :
  (forall d, wd = inl d -> IsAbs d = true) ->
  Abs wd p = inl a -> IsAbs a = true.
Proof.
  intros Hwd. unfold Abs. destruct (IsAbs p) eqn:Hp.
  - intros [= <-]. by apply IsAbs_Clean.
  - destruct wd as [d|e]; [|done]. intros [= <-].
    by apply Join_absolute, Hwd.
Qed.

Lemma NewLocalFSWithConfig_base_absolute (C : Collaborators)
    (wd : string + error) (cfg : LocalFSConfig) (w w' : Store) (l : LocalFS) :
  (forall d, wd = inl d -> IsAbs d = true) ->
  NewLocalFSWithConfig C wd cfg w = Ret (inl l) w' ->
  IsAbs (baseDirectory l) = true.
Proof.
  intros Hwd Hrun.
  destruct (NewLocalFSWithConfig_cases C wd cfg w w eq_refl)
    as (r & w1 & Hrun' & Hr).
  rewrite Hrun in Hrun'. inversion Hrun'; subst.
  destruct Hr as [_ Habs]. by eapply Abs_absolute.
Qed.

(** *** Which files become entries *)

(** C7, as stated, fails for the hidden-file rule: the test is on the
    walked path, not on the name of the entry.  [.secret.yaml] in the
    directory [sub] has the path [sub/.secret.yaml] and becomes an entry,
    while [.hidden.yaml] at the top does not. *)
Lemma hidden_name_below_a_directory_is_an_entry :
  exists lfs w',
    NewLocalFSWithConfig sampleC sampleWd sampleConfig emptyStore
      = Ret (inl lfs) w' /\
    Files lfs !! "/specs/sub/.secret.yaml" = Some 2 /\
    name <$> files w' !! 2 = Some ".secret.yaml" /\
    HasPrefix ".secret.yaml" "." = true /\
    Files lfs !! "/specs/.hidden.yaml" = None.
Proof.
  exists sampleLocalFS, discovered. split; [apply discovery_sample|].
  repeat split; vm_compute; reflexivity.
Qed.

Lemma Contains_elem_of (xs : list string) (x : string) :
  Contains xs x = true -> x ∈ xs.
Proof.
  unfold Contains. intros H. apply existsb_exists in H as (y & Hin & Heq).
  apply String.eqb_eq in Heq as ->. by apply list_elem_of_In.
Qed.

Section Eligibility.
Context (C : Collaborators) (wd : string + error).

(** C7, amended. Every entry of a constructed file source points to a record
    made from a visit of the walk that was not a directory and whose walked
    path passed every test: it is the base name of the root when the root
    has an extension of more than two characters (dot included), it does not
    start with a dot, it is in the allow-list when one is configured, and its
    file type is YAML or JSON.  The hidden-file test looks at the walked
    path, so it covers top-level names and everything below a top-level
    hidden directory only.  A visit that fails a test leaves the entries and
    the errors as they were. *)
Theorem discovery_keeps_only_eligible_files (cfg : LocalFSConfig)
    (w w' : Store) (lfs : LocalFS) (key : string) (l : loc) :
  NewLocalFSWithConfig C wd cfg w = Ret (inl lfs) w' ->
  Files lfs !! key = Some l ->
  (exists x d, files w' !! l = Some x /\
     (filename x, Some d, None) ∈ rootVisits (DirFS cfg) "." /\
     IsDir d = false /\
     ((2 < String.length (Ext (BaseDirectory cfg)))%nat ->
        filename x = Base (BaseDirectory cfg)) /\
     HasPrefix (filename x) "." = false /\
     (FileFilters cfg <> [] -> filename x ∈ FileFilters cfg) /\
     extension x = ExtractFileType C (filename x) /\
     extension x <> UNSUPPORTED) /\
  (forall p d s w1,
     IsDir d = true \/ skipped cfg p = true \/
       ExtractFileType C p = UNSUPPORTED ->
     walkFn C wd cfg (Ext (BaseDirectory cfg)) (Base (BaseDirectory cfg))
       p (Some d) None s w1 = Ret (s, None) w1).
Proof.
  intros Hrun Hl. split.
  - destruct (NewLocalFSWithConfig_cases C wd cfg w w eq_refl)
      as (r & w1 & Hrun' & Hr).
    rewrite Hrun in Hrun'. inversion Hrun'; subst r w1. clear Hrun'.
    destruct Hr as [(s & [_ HI] & HF & _) _]. rewrite HF in Hl.
    destruct (HI key l Hl) as (x & Hx & d & Hin & Hd & Hs & Ht & He).
    exists x, d. destruct (skipped_false cfg _ Hs) as (H1 & H2 & H3).
    repeat split; try done.
    + intros Hlen. apply andb_false_iff in H1 as [H1|H1].
      * apply Nat.ltb_ge in H1. lia.
      * apply negb_false_iff in H1. by apply String.eqb_eq.
    + intros Hne. apply andb_false_iff in H3 as [H3|H3].
      * apply Nat.ltb_ge in H3. destruct (FileFilters cfg); [done|cbn in H3; lia].
      * apply negb_false_iff in H3. by apply Contains_elem_of.
    + rewrite He. intros Hu. by rewrite Hu in Ht.
  - intros p d s w1 [Hd|[Hs|Ht]].
    + by apply walkFn_not_a_file.
    + by apply walkFn_skipped.
    + apply walkFn_unsupported. by rewrite Ht.
Qed.

End Eligibility.

Lemma discovery_keeps_only_eligible_files_witness :
  exists x d, files discovered !! 3 = Some x /\
    (filename x, Some d, None) ∈ rootVisits sampleFS "." /\
    IsDir d = false /\ HasPrefix (filename x) "." = false /\
    extension x = YAML.
Proof.
  destruct (discovery_keeps_only_eligible_files sampleC sampleWd sampleConfig
              emptyStore discovered sampleLocalFS "/specs/sub/c.yaml" 3
              discovery_sample eq_refl)
    as [(x & d & Hx & Hin & Hd & _ & Hp & _ & He & _) _].
  exists x, d. repeat split; try assumption.
  rewrite He. injection Hx as <-. reflexivity.
Defined.

(** *** Failures on one file *)

Section Acquisition.
Context (C : Collaborators) (wd : string + error) (cfg : LocalFSConfig).

Local Abbreviation fn :=
  (walkFn C wd cfg (Ext (BaseDirectory cfg)) (Base (BaseDirectory cfg))).

(** C8. For a file that passed the tests of the walk function and whose
    absolute path is [abs]: the walk function never returns an error.  If
    the file cannot be opened, or cannot be read to the end, the error is
    added to the errors of the walk, no record is made and the entries are
    the ones from before.  If only [Stat] fails, giving no info, the stat
    error is added to the errors of the walk and of the record, and the
    record is made with the time read from the clock.  If all succeeds the
    record is stored under [abs] with the bytes read as its content and the
    modification time of the stat.  In every case the entries under other
    keys, the records made before and the errors recorded before stay. *)
Theorem acquisition_failures_are_partial (p abs : string) (d : DirEntry)
    (s : Walk) (w : Store) :
  IsDir d = false -> skipped cfg p = false ->
  supported (ExtractFileType C p) = true ->
  Abs wd (Join (BaseDirectory cfg) p) = inl abs ->
  (forall e, fsOpen (DirFS cfg) p = inr e ->
     fn p (Some d) None s w = Ret (addError e s, None) (tick w)) /\
  (forall file e, fsOpen (DirFS cfg) p = inl file -> ReadAll file = inr e ->
     exists s', fn p (Some d) None s w = Ret (s', None) (tick w) /\
       localFiles s' = localFiles s /\
       allErrors s' = allErrors s
         ++ match (Stat file).2 with Some se => [se] | None => [] end ++ [e]) /\
  (forall file se fileData, fsOpen (DirFS cfg) p = inl file ->
     Stat file = (None, Some se) -> ReadAll file = inl fileData ->
     fn p (Some d) None s w
       = Ret (addFile abs (length (files w)) (addError se s), None)
             (set_files
                (files w ++
                 [{| filename := p; name := Base p;
                     extension := ExtractFileType C p;
                     data := Some fileData; fullPath := abs;
                     lastModified := clock w; readingErrors := [se];
                     index := None; parsed := None |}])
                (tick w))) /\
  (forall file info fileData, fsOpen (DirFS cfg) p = inl file ->
     Stat file = (Some info, None) -> ReadAll file = inl fileData ->
     fn p (Some d) None s w
       = Ret (addFile abs (length (files w)) s, None)
             (set_files
                (files w ++
                 [{| filename := p; name := Base p;
                     extension := ExtractFileType C p;
                     data := Some fileData; fullPath := abs;
                     lastModified := ModTime info; readingErrors := [];
                     index := None; parsed := None |}])
                (tick w))) /\
  (exists s' w', fn p (Some d) None s w = Ret (s', None) w' /\
     (forall key, key <> abs -> localFiles s' !! key = localFiles s !! key) /\
     (forall l x, files w !! l = Some x -> files w' !! l = Some x) /\
     (forall e, e ∈ allErrors s -> e ∈ allErrors s')).
Proof.
  intros Hd Hs Ht Habs.
  rewrite (walkFn_candidate C wd cfg p d s w Hd Hs Ht).
  unfold acquired. rewrite Habs. repeat split.
  - intros e ->. reflexivity.
  - intros file e -> ->. eexists. split; [reflexivity|].
    destruct (Stat file).2; cbn; [|done]. by rewrite <- app_assoc.
  - intros file se fileData -> Hstat ->. by rewrite Hstat.
  - intros file info fileData -> Hstat ->. by rewrite Hstat.
  - destruct (fsOpen (DirFS cfg) p) as [file|e].
    + destruct (ReadAll file) as [fileData|e].
      * eexists _, _. split; [reflexivity|]. repeat split.
        -- intros key Hne. cbn. rewrite lookup_insert_ne by done.
           by destruct (Stat file).2.
        -- intros l x Hl. cbn. by apply lookup_alloc_old.
        -- intros e He. cbn. destruct (Stat file).2; [|done]. cbn.
           apply elem_of_app. by left.
      * eexists _, _. split; [reflexivity|]. repeat split.
        -- intros key _. cbn. by destruct (Stat file).2.
        -- done.
        -- intros e0 He. cbn. apply elem_of_app. left.
           destruct (Stat file).2; [|done]. cbn. apply elem_of_app. by left.
    + eexists _, _. split; [reflexivity|]. repeat split; [done|].
      intros e0 He. cbn. apply elem_of_app. by left.
Qed.

End Acquisition.

Lemma acquisition_failures_are_partial_witness :
  walkFn sampleC sampleWd flakyConfig "" "specs" "b.yaml"
    (Some {| Name := "b.yaml"; IsDir := false |}) None
    {| localFiles := {[ "/specs/a.yaml" := 0 ]}; allErrors := [] |}
    (sampleStore "a: 1")
  = Ret ({| localFiles := {[ "/specs/a.yaml" := 0 ]};
            allErrors := [ErrPermission] |}, None)
        (tick (sampleStore "a: 1")) /\
  exists s' w',
    walkFn sampleC sampleWd flakyConfig "" "specs" "d.yaml"
      (Some {| Name := "d.yaml"; IsDir := false |}) None
      {| localFiles := {[ "/specs/a.yaml" := 0 ]}; allErrors := [] |}
      (sampleStore "a: 1") = Ret (s', None) w' /\
    localFiles s' !! "/specs/d.yaml" = Some 1 /\
    lastModified <$> files w' !! 1 = Some 0 /\
    readingErrors <$> files w' !! 1 = Some [ErrIO "stat failed"] /\
    allErrors s' = [ErrIO "stat failed"].
Proof.
  split.
  - destruct (acquisition_failures_are_partial sampleC sampleWd flakyConfig
                "b.yaml" "/specs/b.yaml" {| Name := "b.yaml"; IsDir := false |}
                {| localFiles := {[ "/specs/a.yaml" := 0 ]}; allErrors := [] |}
                (sampleStore "a: 1") eq_refl eq_refl eq_refl eq_refl)
      as (Hopen & _).
    exact (Hopen ErrPermission eq_refl).
  - destruct (acquisition_failures_are_partial sampleC sampleWd flakyConfig
                "d.yaml" "/specs/d.yaml" {| Name := "d.yaml"; IsDir := false |}
                {| localFiles := {[ "/specs/a.yaml" := 0 ]}; allErrors := [] |}
                (sampleStore "a: 1") eq_refl eq_refl eq_refl eq_refl)
      as (_ & _ & Hstat & _).
    eexists _, _. split; [exact (Hstat _ _ _ eq_refl eq_refl eq_refl)|].
    repeat split.
Defined.

(** One walk over a directory with an unopenable file, an unreadable file
    and a file whose stat fails: the other files and the last one become
    entries, and the three errors are collected. *)
Example discovery_with_flaky_files :
  exists lfs w',
    NewLocalFSWithConfig sampleC sampleWd flakyConfig emptyStore
      = Ret (inl lfs) w' /\
    Files lfs
      = {[ "/specs/a.yaml" := 0; "/specs/d.yaml" := 1; "/specs/e.json" := 2 ]} /\
    fsReadingErrors lfs
      = [ErrPermission; ErrIO "unexpected EOF"; ErrIO "stat failed"].
Proof.
  eexists _, _. split; [vm_compute; reflexivity|].
  split; vm_compute; reflexivity.
Qed.

(** *** Overlapping calls of [Index] *)

(** C9, as stated, fails: when both calls test the cache before either
    assigns it, both build; the two calls return different indexes, and the
    record keeps the one assigned last. *)
Lemma overlapping_Index_calls_build_twice :
  exists w',
    runSchedule sampleC 0 sampleCfg sampleCfg
      [true; false; true; false; true; false] (AtEntry, AtEntry)
      (sampleStore "a: 1")
    = Ret (Returned (inl 0), Returned (inl 1)) w' /\
    builds w' = 2 /\ parses w' = 2 /\
    index <$> files w' !! 0 = Some (Some 1).
Proof. eexists. split; [vm_compute; reflexivity|]. repeat split. Qed.

Section ThreadFacts.
Context (C : Collaborators).

(** The steps of one call, run without interruption, are [Index]. *)
Lemma indexAlone_is_Index (l : loc) (cfg : SpecIndexConfig) (w : Store) :
  indexAlone C l cfg w = bind (Index C l cfg) (fun r => ret (Returned r)) w.
Proof.
  unfold indexAlone, Index, indexStep. go_red.
  destruct (files w !! l) as [x|] eqn:Hl; [|done].
  destruct (index x) as [i|] eqn:Hi; go_run; [done|].
  destruct (ExtractSpecInfoWithDocumentCheck C _ true) as [[n|]|err];
    go_run; reflexivity.
Qed.

End ThreadFacts.

Section ThreadInvariant.
Context (C : Collaborators) (l : loc) (x : LocalFile) (w0 : Store).
Context (rv : option yaml_Node).
Context (Hrv : ExtractSpecInfoWithDocumentCheck C (bytes_of (data x)) true = inl rv).

Lemma stamped_grows (w w' : Store) (more : list SpecIndex) (i : loc) :
  indexes w' = indexes w ++ more -> stamped w x i -> stamped w' x i.
Proof.
  intros Hw (ix & Hix & Hp). exists ix. split; [|done].
  rewrite Hw. by apply lookup_app_l_Some.
Qed.

Lemma pcOK_grows (w w' : Store) (more : list SpecIndex) (c c' : option loc)
    (b : bool) (pc : IndexPC) :
  indexes w' = indexes w ++ more -> (c <> None -> c' <> None) ->
  pcOK w x c b pc -> pcOK w' x c' b pc.
Proof.
  intros Hw Hc. destruct pc as [| |i|[i|e]]; cbn; try done.
  - intros [Hb Hs]. split; [done|]. by eapply stamped_grows.
  - intros [Hs Hne]. split; [by eapply stamped_grows|auto].
Qed.

Lemma set_index_twice (c c' : option loc) :
  set_index c' (set_index c x) = set_index c' x.
Proof. reflexivity. Qed.

Lemma threadsInv_swap (pcA pcB : IndexPC) (w : Store) :
  threadsInv l x w0 (pcA, pcB) w -> threadsInv l x w0 (pcB, pcA) w.
Proof.
  intros (c & bA & bB & Hf & Hb & HA & HB & Hc).
  exists c, bB, bA. split; [done|]. split; [lia|]. split; [done|].
  split; [done|]. intros i Hi. destruct (Hc i Hi) as (Hs & Hor & Hret).
  split; [done|]. split; [by rewrite orb_comm|].
  destruct Hret as [Hr|Hr]; [by right|by left].
Qed.

Lemma builds_after_build (w w' : Store) (content : list byte)
    (r : option loc) (cfg : SpecIndexConfig) :
  events w' = events w ++ [EvExtractSpecInfo content] ++ [EvNewSpecIndex r cfg] ->
  builds w' = S (builds w).
Proof.
  intros He. unfold builds. rewrite He, List.filter_app, length_app. cbn. lia.
Qed.

(** A step of the first call keeps the invariant, and never faults. *)
Lemma indexStep_keeps (cfg : SpecIndexConfig) (pcA pcB : IndexPC) (w : Store) :
  threadsInv l x w0 (pcA, pcB) w ->
  exists pcA' w', indexStep C l cfg pcA w = Ret pcA' w' /\
    threadsInv l x w0 (pcA', pcB) w'.
Proof.
  intros (c & bA & bB & Hf & Hb & HA & HB & Hc). cbn [fst snd] in *.
  destruct pcA as [| |i|r]; unfold indexStep.
  - go_run. cbn [index set_index]. destruct c as [i|].
    + eexists _, _. split; [reflexivity|]. exists (Some i), bA, bB.
      destruct (Hc i eq_refl) as (Hs & Hor & Hret). cbn [fst snd].
      split; [done|]. split; [done|]. split; [by split|]. split; [done|].
      intros i0 [= <-]. split; [done|]. split; [done|]. by left.
    + eexists _, _. split; [reflexivity|]. exists None, bA, bB. cbn [fst snd].
      split; [done|]. split; [done|]. split; [done|]. split; [done|]. done.
  - go_run. cbn [data set_index fullPath]. rewrite Hrv. cbn in HA. subst bA.
    assert (Hgrow : forall r w',
      files w' = files w ->
      indexes w' = indexes w ++
        [set_specAbsolutePath (fullPath x) (buildSpecIndex C r cfg)] ->
      events w' = events w ++ [EvExtractSpecInfo (bytes_of (data x))]
                           ++ [EvNewSpecIndex r cfg] ->
      threadsInv l x w0 (AtPublish (length (indexes w)), pcB) w').
    { intros r w' Hfw Hiw Hew. exists c, true, bB. cbn [fst snd].
      split; [by rewrite Hfw|]. split.
      { rewrite (builds_after_build w w' _ _ _ Hew), Hb. cbn. lia. }
      split.
      { split; [done|]. eexists. split; [rewrite Hiw; apply lookup_alloc|done]. }
      split; [by eapply pcOK_grows|].
      intros i Hi. destruct (Hc i Hi) as (Hs & _ & Hret).
      split; [by eapply stamped_grows|]. split; [done|].
      destruct Hret as [Hret|Hret]; [done|by right]. }
    destruct rv as [n|]; go_run; eexists _, _; (split; [reflexivity|]);
      (eapply Hgrow; [reflexivity|reflexivity|cbn; by rewrite <- app_assoc]).
  - go_run. rewrite set_index_twice. destruct HA as [-> Hs].
    eexists _, _. split; [reflexivity|]. exists (Some i), true, bB.
    cbn [fst snd files set_files]. split; [by eapply lookup_store|].
    split; [done|]. split; [done|].
    split; [eapply (pcOK_grows w _ [] c); [|done|exact HB]; by rewrite app_nil_r|].
    intros i0 [= <-]. split; [done|]. split; [done|]. by left.
  - eexists _, _. split; [reflexivity|]. by exists c, bA, bB.
Qed.

Lemma runSchedule_keeps (cfgA cfgB : SpecIndexConfig) (sched : list bool) :
  forall pcs w, threadsInv l x w0 pcs w ->
    exists pcs' w', runSchedule C l cfgA cfgB sched pcs w = Ret pcs' w' /\
      threadsInv l x w0 pcs' w'.
Proof.
  induction sched as [|[|] rest IH]; intros [pcA pcB] w HI.
  - by exists (pcA, pcB), w.
  - cbn [runSchedule fst snd]. unfold bind.
    destruct (indexStep_keeps cfgA pcA pcB w HI) as (pcA' & w1 & -> & HI1).
    by apply IH.
  - cbn [runSchedule fst snd]. unfold bind.
    destruct (indexStep_keeps cfgB pcB pcA w (threadsInv_swap _ _ _ HI))
      as (pcB' & w1 & -> & HI1).
    by apply IH, threadsInv_swap.
Qed.

End ThreadInvariant.

Section Overlap.
Context (C : Collaborators).

Lemma runSchedule_first_alone (l : loc) (cfgA cfgB : SpecIndexConfig)
    (rest : list bool) (pcB : IndexPC) (w : Store) :
  runSchedule C l cfgA cfgB (true :: true :: true :: rest) (AtEntry, pcB) w
  = bind (indexAlone C l cfgA) (fun pc => runSchedule C l cfgA cfgB rest (pc, pcB)) w.
Proof.
  cbn [runSchedule fst snd]. unfold indexAlone, bind.
  destruct (indexStep C l cfgA AtEntry w) as [pc1 w1|]; [|done].
  destruct (indexStep C l cfgA pc1 w1) as [pc2 w2|]; [|done].
  by destruct (indexStep C l cfgA pc2 w2).
Qed.

Lemma runSchedule_second_returned (l : loc) (cfgA cfgB : SpecIndexConfig)
    (m : nat) (pcA : IndexPC) (r : loc + error) (w : Store) :
  runSchedule C l cfgA cfgB (replicate m false) (pcA, Returned r) w
  = Ret (pcA, Returned r) w.
Proof. induction m as [|m IH]; [done|]. cbn. unfold bind, ret. exact IH. Qed.

(** C9, amended. [Index] takes no lock, and two calls on one record are not
    serialized.  Whatever the interleaving of their steps, no step faults,
    and once both calls have returned: both returned an index, each one
    stamped with the path of the record; the record caches one of the two;
    and one or two indexes were built, never none.  When the first call
    returns before the second one starts, one index is built and both calls
    return it. *)
Theorem Index_calls_are_not_serialized (l : loc) (cfgA cfgB : SpecIndexConfig)
    (w : Store) (x : LocalFile) (rv : option yaml_Node) (sched : list bool) :
  files w !! l = Some x -> index x = None ->
  ExtractSpecInfoWithDocumentCheck C (bytes_of (data x)) true = inl rv ->
  (exists pcs' w',
     runSchedule C l cfgA cfgB sched (AtEntry, AtEntry) w = Ret pcs' w') /\
  (forall ra rb w',
     runSchedule C l cfgA cfgB sched (AtEntry, AtEntry) w
       = Ret (Returned ra, Returned rb) w' ->
     exists ia ib, ra = inl ia /\ rb = inl ib /\
       stamped w' x ia /\ stamped w' x ib /\
       (index <$> files w' !! l = Some (Some ia) \/
        index <$> files w' !! l = Some (Some ib)) /\
       S (builds w) <= builds w' <= S (S (builds w))) /\
  (forall m, exists i w',
     runSchedule C l cfgA cfgB ([true; true; true] ++ replicate (S m) false)
       (AtEntry, AtEntry) w
       = Ret (Returned (inl i), Returned (inl i)) w' /\
     builds w' = S (builds w) /\ parses w' = S (parses w)).
Proof.
  intros Hl Hi Hrv.
  assert (HI : threadsInv l x w (AtEntry, AtEntry) w).
  { exists None, false, false. cbn [fst snd]. split.
    - rewrite Hl. f_equal. destruct x. cbn in Hi. by subst.
    - split; [cbn; lia|]. by repeat split. }
  destruct (runSchedule_keeps C l x w rv Hrv cfgA cfgB sched _ w HI)
    as (pcs' & w1 & Hrun & HI1).
  split; [by exists pcs', w1|]. split.
  - intros ra rb w' Hrun'. rewrite Hrun in Hrun'. inversion Hrun'; subst.
    destruct HI1 as (c & bA & bB & Hf & Hb & HA & HB & Hc). cbn [fst snd] in *.
    destruct ra as [ia|ea]; [|done]. destruct rb as [ib|eb]; [|done].
    destruct HA as [HsA HcA]. destruct HB as [HsB _].
    destruct c as [i|]; [|done].
    destruct (Hc i eq_refl) as (_ & Hor & Hret).
    exists ia, ib. repeat split; try done.
    + rewrite Hf. cbn. destruct Hret as [[= ->]|[= ->]]; [by left|by right].
    + rewrite Hb. destruct bA, bB; cbn in *; (lia || done).
    + rewrite Hb. destruct bA, bB; cbn; lia.
  - intros m. cbn [app]. rewrite runSchedule_first_alone.
    unfold bind at 1. rewrite indexAlone_is_Index. unfold bind at 1.
    destruct (Index_build C l cfgA w x rv Hl Hi Hrv)
      as (w2 & Hrun2 & Hf2 & Hix2 & Hn2 & He2).
    rewrite Hrun2. unfold ret. cbn [replicate runSchedule fst snd].
    unfold bind at 1. unfold indexStep. go_red.
    rewrite Hf2, (lookup_store _ _ _ _ Hl). cbn [index set_index].
    rewrite runSchedule_second_returned.
    eexists _, _. split; [reflexivity|].
    unfold builds, parses. rewrite He2, !List.filter_app, !length_app. cbn. lia.
Qed.

End Overlap.

Lemma Index_calls_are_not_serialized_witness :
  exists w',
    runSchedule sampleC 0 sampleCfg sampleCfg
      [true; false; false; true; false; true] (AtEntry, AtEntry)
      (sampleStore "a: 1")
    = Ret (Returned (inl 1), Returned (inl 0)) w' /\
    stamped w' (sampleFile "a: 1") 1 /\ stamped w' (sampleFile "a: 1") 0 /\
    (index <$> files w' !! 0 = Some (Some 1) \/
     index <$> files w' !! 0 = Some (Some 0)) /\
    1 <= builds w' <= 2.
Proof.
  eexists. split; [vm_compute; reflexivity|].
  match goal with |- stamped ?w' _ _ /\ _ =>
    destruct (Index_calls_are_not_serialized sampleC 0 sampleCfg sampleCfg
                (sampleStore "a: 1") _ (Some sampleNode)
                [true; false; false; true; false; true]
                eq_refl eq_refl eq_refl) as (_ & Hboth & _);
    destruct (Hboth (inl 1) (inl 0) w' eq_refl)
      as (ia & ib & Ha & Hb & Hsa & Hsb & Hc & Hn)
  end.
  injection Ha as <-. injection Hb as <-. repeat split; try assumption; apply Hn.
Defined.

(** *** Reading a handle to the end *)

Lemma Read_at_end (r : loc) (b : list byte) (w : Store) (h : localRolodexFile)
    (x : LocalFile) :
  handles w !! r = Some h -> files w !! f h = Some x ->
  (Z.of_nat (length (bytes_of (data x))) <= offset h)%Z ->
  Read r b w = Ret (b, 0%Z, Some EOF) w.
Proof.
  intros Hr Hx Hend. unfold Read, GetContent, GetFullPath. go_run.
  by destruct (Z.leb_spec (Z.of_nat (length (bytes_of (data x)))) (offset h));
    [|lia].
Qed.

Lemma Read_in_range (r : loc) (b : list byte) (w : Store) (h : localRolodexFile)
    (x : LocalFile) :
  handles w !! r = Some h -> files w !! f h = Some x ->
  (0 <= offset h < Z.of_nat (length (bytes_of (data x))))%Z ->
  Read r b w
  = Ret (take (min (length b)
                   (length (drop (Z.to_nat (offset h)) (bytes_of (data x)))))
              (drop (Z.to_nat (offset h)) (bytes_of (data x)))
         ++ drop (min (length b)
                      (length (drop (Z.to_nat (offset h)) (bytes_of (data x))))) b,
         Z.of_nat (min (length b)
                       (length (drop (Z.to_nat (offset h)) (bytes_of (data x))))),
         None)
        (set_handles
           (<[r := {| f := f h;
                      offset := (offset h + Z.of_nat
                        (min (length b)
                             (length (drop (Z.to_nat (offset h))
                                        (bytes_of (data x))))))%Z |}]>
              (handles w)) w).
Proof.
  intros Hr Hx Hin. unfold Read, GetContent, GetFullPath, copy. go_run.
  destruct (Z.leb_spec (Z.of_nat (length (bytes_of (data x)))) (offset h));
    [lia|].
  destruct (Z.ltb_spec (offset h) 0); [lia|]. by go_run.
Qed.

(** X1. A handle whose offset lies within the content stays so under
    [Read]: the call returns a count between 0 and [len(b)], the offset
    grows by exactly that count and never passes the content length, the
    buffer keeps its length, the record is not touched, and the only error
    is [EOF], reported exactly when the offset was already at the end (even
    for an empty buffer; an empty buffer before the end reads 0 bytes
    without an error). *)
Theorem Read_keeps_offset_in_bounds (r : loc) (b : list byte) (w : Store)
    (h : localRolodexFile) (x : LocalFile) :
  handles w !! r = Some h -> files w !! f h = Some x ->
  (0 <= offset h <= Z.of_nat (length (bytes_of (data x))))%Z ->
  exists b' n e w' h',
    Read r b w = Ret (b', n, e) w' /\
    handles w' !! r = Some h' /\ f h' = f h /\
    offset h' = (offset h + n)%Z /\
    (0 <= n <= Z.of_nat (length b))%Z /\
    (offset h' <= Z.of_nat (length (bytes_of (data x))))%Z /\
    length b' = length b /\ files w' = files w /\
    (e = Some EOF <-> offset h = Z.of_nat (length (bytes_of (data x)))) /\
    (e = None \/ e = Some EOF).
Proof.
  intros Hr Hx Hrange.
  destruct (Z.eq_dec (offset h) (Z.of_nat (length (bytes_of (data x)))))
    as [Hend|Hmid].
  - rewrite (Read_at_end r b w h x Hr Hx) by lia.
    exists b, 0%Z, (Some EOF), w, h. repeat split; try done; try lia. by right.
  - rewrite (Read_in_range r b w h x Hr Hx) by lia.
    set (src := drop (Z.to_nat (offset h)) (bytes_of (data x))).
    assert (Hsrc : length src = length (bytes_of (data x)) - Z.to_nat (offset h)).
    { unfold src. by rewrite length_drop. }
    eexists _, _, _, _, _. split; [reflexivity|].
    split; [cbn; by eapply lookup_store|].
    cbn [f offset files set_handles]. repeat split; try done; try lia.
    + rewrite length_app, length_take, length_drop. lia.
    + by left.
Qed.

Lemma Read_keeps_offset_in_bounds_witness :
  exists b' w' h',
    Read 0 [] twoHandles = Ret (b', 0%Z, None) w' /\
    handles w' !! 0 = Some h' /\ offset h' = 1%Z.
Proof.
  destruct (Read_keeps_offset_in_bounds 0 [] twoHandles _ _ eq_refl eq_refl
              ltac:(cbn; lia))
    as (b' & n & e & w' & h' & Hrun & Hh & _ & Ho & Hn & _ & _ & _ & He & Hor).
  cbn in Hn. assert (n = 0%Z) as -> by lia.
  destruct Hor as [-> | ->].
  - exists b', w', h'. by repeat split.
  - apply proj1 in He. specialize (He eq_refl). cbn in He. lia.
Defined.

Lemma readChunks_drains (r : loc) (k n : nat) :
  forall (w : Store) (h : localRolodexFile) (x : LocalFile),
  handles w !! r = Some h -> files w !! f h = Some x ->
  (0 <= offset h <= Z.of_nat (length (bytes_of (data x))))%Z ->
  0 < k ->
  length (bytes_of (data x)) - Z.to_nat (offset h) <= n * k ->
  exists w',
    readChunks r k n w
      = Ret (drop (Z.to_nat (offset h)) (bytes_of (data x))) w' /\
    handles w' !! r
      = Some {| f := f h;
                offset := Z.of_nat (length (bytes_of (data x))) |} /\
    (forall r', r' <> r -> handles w' !! r' = handles w !! r') /\
    files w' = files w /\
    (forall b, Read r b w' = Ret (b, 0%Z, Some EOF) w').
Proof.
  induction n as [|n IH]; intros w h x Hr Hx Hrange Hk Hn.
  - exists w. assert (Hend : offset h = Z.of_nat (length (bytes_of (data x)))) by lia.
    split; [cbn; unfold ret; by rewrite drop_ge by lia|].
    split; [rewrite Hr, <- Hend; by destruct h|].
    split; [done|]. split; [done|].
    intros b. apply (Read_at_end r b w h x Hr Hx). lia.
  - cbn [readChunks]. unfold bind at 1.
    destruct (Z.eq_dec (offset h) (Z.of_nat (length (bytes_of (data x)))))
      as [Hend|Hmid].
    + rewrite (Read_at_end r _ w h x Hr Hx) by lia.
      destruct (IH w h x Hr Hx Hrange Hk ltac:(lia))
        as (w' & Hrun & Hh & Hother & Hf & Heof).
      exists w'. unfold bind. rewrite Hrun. cbn. by repeat split.
    + rewrite (Read_in_range r _ w h x Hr Hx) by lia.
      rewrite length_replicate.
      set (src := drop (Z.to_nat (offset h)) (bytes_of (data x))).
      assert (Hsrc : length src = length (bytes_of (data x)) - Z.to_nat (offset h)).
      { unfold src. by rewrite length_drop. }
      set (m := k `min` length src).
      set (h1 := {| f := f h; offset := (offset h + Z.of_nat m)%Z |}).
      set (w1 := set_handles (<[r := h1]> (handles w)) w).
      assert (Hr1 : handles w1 !! r = Some h1) by (by eapply lookup_store).
      destruct (IH w1 h1 x Hr1 Hx ltac:(cbn; lia) Hk) as
        (w' & Hrun & Hh & Hother & Hf & Heof).
      { cbn [offset h1]. rewrite Z2Nat.inj_add, Nat2Z.id by lia.
        destruct (Nat.min_spec k (length src)) as [[_ Hm]|[_ Hm]];
          fold m in Hm; rewrite Hm; lia. }
      exists w'. unfold bind. rewrite Hrun. cbn [ret fst snd].
      split.
      { f_equal. rewrite Nat2Z.id.
        rewrite take_app_length' by (rewrite length_take; lia).
        cbn [offset h1]. rewrite Z2Nat.inj_add, Nat2Z.id by lia.
        rewrite <- drop_drop. fold src. by rewrite take_drop. }
      split; [exact Hh|]. split; [|by split].
      intros r' Hne. rewrite (Hother r' Hne). cbn.
      by apply list_lookup_insert_ne.
Qed.

(** X2. Reading a handle to the end delivers the content: [n] calls of
    [Read] with a buffer of [k > 0] bytes, enough to cover what lies between
    the offset and the end, deliver exactly the content from the offset on,
    in order and without gaps or repeats; afterwards the offset is the
    content length, every further [Read] reports [EOF], and no other handle
    and no record has changed. *)
Theorem reading_to_the_end_delivers_the_content (r : loc) (k n : nat)
    (w : Store) (h : localRolodexFile) (x : LocalFile) :
  handles w !! r = Some h -> files w !! f h = Some x ->
  (0 <= offset h <= Z.of_nat (length (bytes_of (data x))))%Z ->
  0 < k ->
  length (bytes_of (data x)) - Z.to_nat (offset h) <= n * k ->
  exists w',
    readChunks r k n w
      = Ret (drop (Z.to_nat (offset h)) (bytes_of (data x))) w' /\
    handles w' !! r
      = Some {| f := f h;
                offset := Z.of_nat (length (bytes_of (data x))) |} /\
    (forall r', r' <> r -> handles w' !! r' = handles w !! r') /\
    files w' = files w /\
    (forall b, Read r b w' = Ret (b, 0%Z, Some EOF) w').
Proof. apply readChunks_drains. Qed.

Lemma reading_to_the_end_delivers_the_content_witness :
  exists w',
    readChunks 1 3 2 twoHandles = Ret (bytes "a: 1") w' /\
    handles w' !! 1 = Some {| f := 0; offset := 4 |} /\
    handles w' !! 0 = Some {| f := 0; offset := 1 |}.
Proof.
  destruct (reading_to_the_end_delivers_the_content 1 3 2 twoHandles _ _
              eq_refl eq_refl ltac:(cbn; lia) ltac:(lia) ltac:(cbn; lia))
    as (w' & Hrun & Hh & Hother & _).
  exists w'. split; [exact Hrun|]. split; [exact Hh|].
  exact (Hother 0 ltac:(discriminate)).
Defined.

(** *** What construction establishes *)

Section DiscoveryFacts.
Context (C : Collaborators) (wd : string + error) (cfg : LocalFSConfig).
Context (w0 : Store).

Local Abbreviation fn :=
  (walkFn C wd cfg (Ext (BaseDirectory cfg)) (Base (BaseDirectory cfg))).
Local Abbreviation Facts := (discoveryFacts C wd cfg w0).
Local Abbreviation Reported := (fun e : error => e ∈ walkErrors (DirFS cfg)).

Lemma discoveryFacts_error (s : Walk) (w : Store) (e : error) :
  errorOK C cfg e -> Facts s w -> Facts (addError e s) (tick w).
Proof.
  intros He (Hn & Hi & Hh & Hev & Hc & Hf & Hent & Hinj & Herr).
  do 4 (split; [done|]). split; [cbn; lia|]. do 3 (split; [done|]).
  intros e0. cbn. rewrite elem_of_app, list_elem_of_singleton.
  intros [H0| ->]; [by apply Herr|done].
Qed.

Lemma discoveryFacts_stat (s : Walk) (w : Store) (se : option error) :
  (forall e, se = Some e -> errorOK C cfg e) -> Facts s w ->
  Facts (match se with Some e => addError e s | None => s end) w.
Proof.
  intros Hse HF. destruct se as [e|]; [|done].
  destruct HF as (Hn & Hi & Hh & Hev & Hc & Hf & Hent & Hinj & Herr).
  do 8 (split; [done|]).
  intros e0. cbn. rewrite elem_of_app, list_elem_of_singleton.
  intros [H0| ->]; [by apply Herr|by apply Hse].
Qed.

Lemma discoveryFacts_add (s : Walk) (w : Store) (abs : string) (x : LocalFile) :
  entryOK C wd cfg abs x -> Facts s w ->
  Facts (addFile abs (length (files w)) s) (set_files (files w ++ [x]) (tick w)).
Proof.
  intros Hx (Hn & Hi & Hh & Hev & Hc & [more Hf] & Hent & Hinj & Herr).
  split; [done|]. split; [done|]. split; [done|]. split; [done|].
  split; [cbn; lia|]. split; [exists (more ++ [x]); cbn; by rewrite Hf, app_assoc|].
  split; [|split; [|done]].
  - intros key l. cbn. intros Hl.
    apply lookup_insert_Some in Hl as [[<- <-]|[Hne Hl]].
    + split; [rewrite Hf, length_app; lia|].
      exists x. split; [apply lookup_alloc|done].
    + destruct (Hent key l Hl) as (Hge & x0 & Hx0 & Hok).
      split; [done|]. exists x0. split; [by apply lookup_alloc_old|done].
  - intros k1 k2 l. cbn. intros H1 H2.
    apply lookup_insert_Some in H1 as [[<- <-]|[Hne1 H1]];
      apply lookup_insert_Some in H2 as [[<- H2]|[Hne2 H2]]; try done.
    + destruct (Hent k2 _ H2) as (_ & x0 & Hx0 & _).
      apply lookup_lt_Some in Hx0. lia.
    + destruct (Hent k1 _ H1) as (_ & x0 & Hx0 & _).
      apply lookup_lt_Some in Hx0. lia.
    + by eapply Hinj.
Qed.

Lemma walkFn_facts (v : string * option DirEntry * option error) :
  v ∈ rootVisits (DirFS cfg) "." -> fnKeeps fn Facts Reported v.
Proof.
  destruct v as [[p d] err]. intros Hin s w HF. cbn [fst snd].
  assert (Hskip : keeps Facts Reported (Ret (s, None) w)).
  { exists s, None, w. split; [done|]. by split. }
  destruct err as [e|].
  { rewrite walkFn_error. exists s, (Some e), w. split; [done|]. split; [done|].
    intros e0 [= <-]. unfold walkErrors. apply list_elem_of_omap.
    by exists (p, d, Some e). }
  destruct d as [d|]; [|by rewrite walkFn_not_a_file].
  destruct (IsDir d) eqn:Hd; [by rewrite walkFn_not_a_file|].
  destruct (skipped cfg p) eqn:Hs; [by rewrite walkFn_skipped|].
  destruct (supported (ExtractFileType C p)) eqn:Ht;
    [|by rewrite walkFn_unsupported].
  rewrite walkFn_candidate by done. unfold acquired.
  assert (Hcand : forall e,
    (fsOpen (DirFS cfg) p = inr e \/
     exists file, fsOpen (DirFS cfg) p = inl file /\
       ((Stat file).2 = Some e \/ ReadAll file = inr e)) -> errorOK C cfg e).
  { intros e He. by exists p, d. }
  destruct (Abs wd (Join (BaseDirectory cfg) p)) as [a|absErr] eqn:Habs;
    destruct (fsOpen (DirFS cfg) p) as [file|e] eqn:Hopen;
    try (eexists _, None, _; split; [reflexivity|]; split; [|done];
         apply discoveryFacts_error; [apply Hcand; by left|done]);
    destruct (ReadAll file) as [fileData|e] eqn:Hread;
    try (eexists _, None, _; split; [reflexivity|]; split; [|done];
         apply discoveryFacts_error;
           [apply Hcand; right; exists file; split; [done|by right]|];
         apply discoveryFacts_stat; [|done]; intros e0 He0;
         apply Hcand; right; exists file; split; [done|by left]).
  all: eexists _, None, _; split; [reflexivity|]; split; [|done].
  all: match goal with
       | |- Facts (addFile ?k _ ?s1) (set_files (_ ++ [?x]) _) =>
           assert (Hs1 : Facts s1 w)
             by (apply discoveryFacts_stat; [|done]; intros e0 He0;
                 apply Hcand; right; exists file; split; [done|by left]);
           apply (discoveryFacts_add s1 w k x); [|exact Hs1]
       end.
  all: split; [exists d; by repeat split|].
  all: cbn [filename fullPath name index parsed data lastModified readingErrors].
  all: unfold keyOf; rewrite Habs.
  all: repeat (split; [done|]).
  all: exists file, fileData; repeat (split; [done|]).
  all: split; [intros info Hinfo; by rewrite Hinfo|done].
Qed.

End DiscoveryFacts.

Section ConstructionFacts.
Context (C : Collaborators) (wd : string + error) (cfg : LocalFSConfig).

(** Construction returns, and the store it leaves satisfies the facts above
    for the entries and errors of the file source it returns. *)
Lemma NewLocalFSWithConfig_facts (w : Store) :
  exists r w' s, NewLocalFSWithConfig C wd cfg w = Ret r w' /\
    discoveryFacts C wd cfg w s w' /\
    forall l, r = inl l ->
      Files l = localFiles s /\ fsReadingErrors l = allErrors s /\
      Abs wd (BaseDirectory cfg) = inl (baseDirectory l) /\
      entryPointDirectory l = BaseDirectory cfg.
Proof.
  assert (H0 : discoveryFacts C wd cfg w {| localFiles := ∅; allErrors := [] |} w).
  { do 4 (split; [done|]). split; [lia|].
    split; [exists []; by rewrite app_nil_r|].
    split; [intros key l; cbn; by rewrite lookup_empty|].
    split; [intros k1 k2 l; cbn; by rewrite lookup_empty|].
    intros e. cbn. by intros ?%elem_of_nil. }
  unfold NewLocalFSWithConfig.
  destruct (Abs wd (BaseDirectory cfg)) as [absBaseDir|e].
  - unfold bind.
    destruct (WalkDir_keeps
                (walkFn C wd cfg (Ext (BaseDirectory cfg)) (Base (BaseDirectory cfg)))
                (discoveryFacts C wd cfg w)
                (fun e : error => e ∈ walkErrors (DirFS cfg))
                (DirFS cfg) "." {| localFiles := ∅; allErrors := [] |} w)
      as (s & e & w' & Heq & HF & _); [|done|].
    { apply Forall_forall. intros v Hv. by apply walkFn_facts. }
    rewrite Heq. destruct e as [e|].
    + exists (inr e), w', s. split; [done|]. split; [done|]. by intros l [=].
    + eexists (inl _), w', s. split; [reflexivity|]. split; [done|].
      by intros l [= <-].
  - exists (inr e), w, {| localFiles := ∅; allErrors := [] |}.
    split; [done|]. split; [done|]. by intros l [=].
Qed.

(** X3. Construction only reads the file system: whether it succeeds or
    fails, it leaves the parsed nodes, the indexes, the open handles and the
    log of parser and indexer calls exactly as they were, keeps every record
    that existed at its address, and only appends the new records.  Nothing
    is parsed or indexed at discovery. *)
Theorem construction_only_appends_records (w : Store) :
  exists r w' more, NewLocalFSWithConfig C wd cfg w = Ret r w' /\
    files w' = files w ++ more /\
    nodes w' = nodes w /\ indexes w' = indexes w /\ handles w' = handles w /\
    events w' = events w /\ parses w' = parses w /\ builds w' = builds w /\
    clock w <= clock w' /\
    forall l x, files w !! l = Some x -> files w' !! l = Some x.
Proof.
  destruct (NewLocalFSWithConfig_facts w)
    as (r & w' & s & Hrun & (Hn & Hi & Hh & Hev & Hc & [more Hf] & _) & _).
  exists r, w', more. repeat split; try done.
  - unfold parses. by rewrite Hev.
  - unfold builds. by rewrite Hev.
  - intros l x Hl. rewrite Hf. by apply lookup_app_l_Some.
Qed.

(** X4. Every entry of a constructed file source points to a record that
    holds what discovery read: its full path is the key it is filed under
    (the absolute path of the walked path joined to the base directory), its
    name is the base name of the walked path, its content is the bytes
    [io.ReadAll] returned for the file, its size is their number (whatever
    size the stat reported), its extension is the file type of the path, and
    it has no index yet. *)
Theorem entries_hold_what_was_read (w w' : Store) (lfs : LocalFS)
    (key : string) (l : loc) :
  NewLocalFSWithConfig C wd cfg w = Ret (inl lfs) w' ->
  GetFiles lfs !! key = Some l ->
  exists p file fileData,
    fsOpen (DirFS cfg) p = inl file /\ ReadAll file = inl fileData /\
    key = keyOf wd cfg p /\
    GetFullPath l w' = Ret key w' /\ FullPath l w' = Ret key w' /\
    Name_ l w' = Ret (Base p) w' /\
    GetContent l w' = Ret fileData w' /\
    Size_ l w' = Ret (Z.of_nat (length fileData)) w' /\
    GetFileExtension l w' = Ret (ExtractFileType C p) w' /\
    GetIndex l w' = Ret None w' /\
    (forall info, (Stat file).1 = Some info ->
       ModTime_ l w' = Ret (ModTime info) w') /\
    GetErrors l w'
      = Ret (match Abs wd (Join (BaseDirectory cfg) p) with
             | inl _ => []
             | inr absErr => [absErr]
             end ++ match (Stat file).2 with Some e => [e] | None => [] end) w'.
Proof.
  intros Hrun Hl.
  destruct (NewLocalFSWithConfig_facts w)
    as (r & w1 & s & Hrun' & (_ & _ & _ & _ & _ & _ & Hent & _) & Hr).
  rewrite Hrun in Hrun'. inversion Hrun'; subst r w1. clear Hrun'.
  destruct (Hr lfs eq_refl) as (HF & _). unfold GetFiles in Hl. rewrite HF in Hl.
  destruct (Hent key l Hl) as (_ & x & Hx & Hd & Hkey & Hfp & Hname & Hi & Hp
                               & file & fileData & Hopen & Hread & Hdata & Hmod & Herrs).
  destruct Hd as (d & _ & _ & _ & _ & Hext).
  exists (filename x), file, fileData.
  unfold GetFullPath, FullPath, Name_, GetContent, Size_, GetFileExtension,
    GetIndex, ModTime_, GetErrors.
  go_red. unfold loc in *. go_run. cbn [bytes_of default].
  repeat split; try done; try congruence.
  intros info Hinfo. by rewrite (Hmod info Hinfo).
Qed.

(** X5. The records of the entries are new and not shared: the address of
    an entry's record did not exist before construction, and two different
    keys never point to the same record. *)
Theorem entries_do_not_share_records (w w' : Store) (lfs : LocalFS)
    (k1 k2 : string) (l1 l2 : loc) :
  NewLocalFSWithConfig C wd cfg w = Ret (inl lfs) w' ->
  GetFiles lfs !! k1 = Some l1 -> GetFiles lfs !! k2 = Some l2 ->
  files w !! l1 = None /\ is_Some (files w' !! l1) /\
  (k1 <> k2 -> l1 <> l2).
Proof.
  intros Hrun H1 H2.
  destruct (NewLocalFSWithConfig_facts w)
    as (r & w1 & s & Hrun' & (_ & _ & _ & _ & _ & _ & Hent & Hinj & _) & Hr).
  rewrite Hrun in Hrun'. inversion Hrun'; subst r w1. clear Hrun'.
  destruct (Hr lfs eq_refl) as (HF & _). unfold GetFiles in *.
  rewrite HF in H1, H2.
  destruct (Hent k1 l1 H1) as (Hge & x & Hx & _).
  split; [by apply lookup_ge_None|]. split; [by exists x|].
  intros Hne ->. apply Hne. by eapply Hinj.
Qed.

(** X6. When the configured root has an extension of more than two
    characters, the file source has at most one entry, and the walked path
    of its record is the base name of the root. *)
Theorem single_file_root_has_at_most_one_entry (w w' : Store) (lfs : LocalFS)
    (k1 k2 : string) (l1 l2 : loc) :
  2 < String.length (Ext (BaseDirectory cfg)) ->
  NewLocalFSWithConfig C wd cfg w = Ret (inl lfs) w' ->
  GetFiles lfs !! k1 = Some l1 -> GetFiles lfs !! k2 = Some l2 ->
  k1 = k2 /\ l1 = l2 /\ k1 = keyOf wd cfg (Base (BaseDirectory cfg)) /\
  filename <$> files w' !! l1 = Some (Base (BaseDirectory cfg)).
Proof.
  intros Hext Hrun H1 H2.
  destruct (NewLocalFSWithConfig_facts w)
    as (r & w1 & s & Hrun' & (_ & _ & _ & _ & _ & _ & Hent & _) & Hr).
  rewrite Hrun in Hrun'. inversion Hrun'; subst r w1. clear Hrun'.
  destruct (Hr lfs eq_refl) as (HF & _). unfold GetFiles in *.
  rewrite HF in H1, H2.
  assert (Hone : forall k l, localFiles s !! k = Some l ->
            k = keyOf wd cfg (Base (BaseDirectory cfg)) /\
            filename <$> files w' !! l = Some (Base (BaseDirectory cfg))).
  { intros k l Hk. destruct (Hent k l Hk) as (_ & x & Hx & Hd & Hkey & _).
    destruct Hd as (d & _ & _ & Hs & _).
    destruct (skipped_false cfg _ Hs) as (Hsingle & _).
    apply andb_false_iff in Hsingle as [Hlen|Hne].
    - apply Nat.ltb_ge in Hlen. lia.
    - apply negb_false_iff, String.eqb_eq in Hne.
      unfold loc in *. rewrite Hx. cbn. by rewrite Hkey, Hne. }
  destruct (Hone k1 l1 H1) as [Hk1 Hf1]. destruct (Hone k2 l2 H2) as [Hk2 _].
  assert (k1 = k2) as <- by congruence.
  repeat split; try done. congruence.
Qed.

End ConstructionFacts.

Lemma entries_hold_what_was_read_witness :
  GetContent 0 discovered = Ret (bytes "a: 1") discovered /\
  Size_ 0 discovered = Ret 4%Z discovered /\
  GetFullPath 0 discovered = Ret "/specs/a.yaml" discovered.
Proof.
  destruct (entries_hold_what_was_read sampleC sampleWd sampleConfig
              emptyStore discovered sampleLocalFS "/specs/a.yaml" 0
              discovery_sample eq_refl)
    as (p & file & fileData & Hopen & Hread & _ & Hfp & _ & _ & Hc & Hs & _).
  injection Hopen as <-. injection Hread as <-.
  split; [exact Hc|]. split; [exact Hs|exact Hfp].
Defined.

Lemma entries_do_not_share_records_witness :
  files emptyStore !! 0 = None /\ 0 <> 3.
Proof.
  destruct (entries_do_not_share_records sampleC sampleWd sampleConfig
              emptyStore discovered sampleLocalFS
              "/specs/a.yaml" "/specs/sub/c.yaml" 0 3
              discovery_sample eq_refl eq_refl)
    as (Hnew & _ & Hne).
  split; [exact Hnew|]. apply Hne. discriminate.
Defined.

Lemma single_file_root_has_at_most_one_entry_witness :
  exists lfs w',
    NewLocalFSWithConfig sampleC sampleWd singleFileConfig emptyStore
      = Ret (inl lfs) w' /\
    Files lfs !! "/specs/a.yaml/a.yaml" = Some 0 /\
    forall k l, Files lfs !! k = Some l -> k = "/specs/a.yaml/a.yaml" /\ l = 0.
Proof.
  eexists _, _. split; [vm_compute; reflexivity|]. split; [reflexivity|].
  intros k l Hk.
  match goal with
  | Hk : Files ?lfs !! _ = _ |- _ =>
      destruct (single_file_root_has_at_most_one_entry sampleC sampleWd
                  singleFileConfig emptyStore _ lfs
                  "/specs/a.yaml/a.yaml" k 0 l
                  ltac:(cbn; lia) ltac:(vm_compute; reflexivity) eq_refl Hk)
        as (Hk' & Hl' & _)
  end.
  by split.
Defined.

(** *** Using the entries of a constructed file source *)

Lemma Abs_Join_succeeds (wd : string + error) (base absBase p : string) :
  Abs wd base = inl absBase -> exists a, Abs wd (Join base p) = inl a.
Proof.
  unfold Abs. destruct (IsAbs (Join base p)) eqn:HJ; [by eexists|].
  destruct wd as [d|e]; [by eexists|].
  destruct (IsAbs base) eqn:Hb; [|done].
  destruct (Join_absolute base p Hb) as [_ HJ']. congruence.
Qed.

Section GetContentAsYAMLNodeParse.
Context (C : Collaborators).

Lemma GetContentAsYAMLNode_parse (l : loc) (w : Store) (x : LocalFile)
    (d : list byte) (n : yaml_Node) :
  files w !! l = Some x -> parsed x = None -> index x = None ->
  data x = Some d -> yaml_Unmarshal C d = inl n ->
  GetContentAsYAMLNode C l w
  = Ret (inl (length (nodes w)))
        (set_files (<[l := set_parsed (Some (length (nodes w))) x]> (files w))
           (set_nodes (nodes w ++ [n]) (log (EvUnmarshal d) w))).
Proof. intros Hl Hp Hi Hd Hn. unfold GetContentAsYAMLNode. by go_run. Qed.

End GetContentAsYAMLNodeParse.

Section UsingEntries.
Context (C : Collaborators) (wd : string + error) (cfg : LocalFSConfig).
Context (w w' : Store) (lfs : LocalFS) (key : string) (l : loc).
Context (Hrun : NewLocalFSWithConfig C wd cfg w = Ret (inl lfs) w').
Context (Hl : GetFiles lfs !! key = Some l).

(** The record of the entry, as construction left it. *)
Lemma entry_record :
  exists x, files w' !! l = Some x /\ entryOK C wd cfg key x /\
    Abs wd (BaseDirectory cfg) = inl (baseDirectory lfs) /\
    forall e, e ∈ fsReadingErrors lfs -> errorOK C cfg e.
Proof.
  destruct (NewLocalFSWithConfig_facts C wd cfg w)
    as (r & w1 & s & Hrun' & (_ & _ & _ & _ & _ & _ & Hent & _ & Herr) & Hr).
  rewrite Hrun in Hrun'. inversion Hrun'; subst r w1. clear Hrun'.
  destruct (Hr lfs eq_refl) as (HF & HE & Hbase & _).
  pose proof Hl as Hl'. unfold GetFiles in Hl'. rewrite HF in Hl'.
  destruct (Hent key l Hl') as (_ & x & Hx & Hok).
  exists x. do 3 (split; [done|]). intros e. rewrite HE. apply Herr.
Qed.

Lemma entry_key_absolute :
  (forall d, wd = inl d -> IsAbs d = true) -> IsAbs key = true.
Proof.
  intros Hwd. destruct entry_record as (x & _ & (_ & Hkey & _) & Hbase & _).
  destruct (Abs_Join_succeeds wd _ _ (filename x) Hbase) as [a Ha].
  unfold keyOf in Hkey. rewrite Ha in Hkey. subst key.
  by eapply Abs_absolute.
Qed.

(** X7. Every entry can be opened, and read back.  With a working directory
    that is absolute, [Open] with the key of an entry returns a new handle on
    the entry's record, whose [Stat] is that record; reading this handle to
    the end delivers exactly the bytes [io.ReadAll] returned for the file at
    discovery.  When the configured base directory is absolute and clean,
    [Open] with the walked path of the record, if that is not absolute,
    returns the same. *)
Theorem entries_can_be_opened_and_read_back (w1 : Store) (k n : nat) :
  (forall d, wd = inl d -> IsAbs d = true) ->
  handles w1 = handles w' -> files w1 = files w' ->
  exists p file fileData w2,
    filename <$> files w' !! l = Some p /\
    fsOpen (DirFS cfg) p = inl file /\ ReadAll file = inl fileData /\
    Open wd lfs key w1 = Ret (inl (length (handles w1))) w2 /\
    Stat_ (length (handles w1)) w2 = Ret (l, None) w2 /\
    (Abs wd (BaseDirectory cfg) = inl (BaseDirectory cfg) -> IsAbs p = false ->
     Open wd lfs p w1 = Ret (inl (length (handles w1))) w2) /\
    (0 < k -> length fileData <= n * k ->
     exists w3, readChunks (length (handles w1)) k n w2 = Ret fileData w3).
Proof.
  intros Hwd Hh Hf.
  destruct entry_record as (x & Hx & Hok & Hbase & _).
  pose proof (entry_key_absolute Hwd) as Habs.
  destruct Hok as (_ & Hkey & _ & _ & _ & _
                   & file & fileData & Hopen & Hread & Hdata & _).
  set (w2 := set_handles (handles w1 ++ [{| f := l; offset := 0 |}]) w1).
  assert (Hopened : Open wd lfs key w1 = Ret (inl (length (handles w1))) w2).
  { apply (Open_found wd lfs key key); [|exact Hl].
    unfold resolve. by rewrite Habs. }
  assert (Hh2 : handles w2 !! length (handles w1)
                = Some {| f := l; offset := 0 |}) by apply lookup_alloc.
  exists (filename x), file, fileData, w2.
  split; [unfold loc in *; by rewrite Hx|]. do 3 (split; [done|]).
  split; [unfold Stat_; go_red; unfold loc in *; by rewrite Hh2|]. split.
  - intros Hclean Hrel. apply (Open_found wd lfs (filename x) key); [|exact Hl].
    unfold resolve. rewrite Hrel. cbn [negb].
    assert (baseDirectory lfs = BaseDirectory cfg) as -> by congruence.
    destruct (Abs_Join_succeeds wd _ _ (filename x) Hbase) as [a Ha].
    unfold keyOf in Hkey. rewrite Ha in Hkey. by subst key.
  - intros Hk Hn.
    destruct (readChunks_drains (length (handles w1)) k n w2 _ x Hh2)
      as (w3 & Hread3 & _); try done.
    + cbn [f files w2 set_handles]. by rewrite Hf.
    + cbn [offset]. lia.
    + rewrite Hdata. cbn. lia.
    + exists w3. rewrite Hread3, Hdata. by cbn.
Qed.

(** X8. The index of an entry carries the entry's key.  Before [Index] is
    called, [GetIndex] of an entry's record is nil.  When the content that
    was read parses, [Index] on the record returns a new index whose
    [specAbsolutePath] is the key the entry is filed under, and [GetIndex]
    returns that index from then on, changing nothing. *)
Theorem Index_of_an_entry_is_stamped_with_its_key (icfg : SpecIndexConfig) :
  exists p file fileData,
    fsOpen (DirFS cfg) p = inl file /\ ReadAll file = inl fileData /\
    GetIndex l w' = Ret None w' /\
    forall rv, ExtractSpecInfoWithDocumentCheck C fileData true = inl rv ->
      exists w2, Index C l icfg w' = Ret (inl (length (indexes w'))) w2 /\
        specAbsolutePath <$> indexes w2 !! length (indexes w') = Some key /\
        GetIndex l w2 = Ret (Some (length (indexes w'))) w2.
Proof.
  destruct entry_record as (x & Hx & Hok & _).
  destruct Hok as (_ & _ & Hfp & _ & Hi & _
                   & file & fileData & Hopen & Hread & Hdata & _).
  exists (filename x), file, fileData. do 2 (split; [done|]).
  split; [unfold GetIndex; by go_run|].
  intros rv Hrv.
  destruct (Index_build C l icfg w' x rv Hx Hi) as (w2 & Hrun2 & Hf2 & Hix2 & _).
  { by rewrite Hdata. }
  exists w2. split; [exact Hrun2|]. split.
  - rewrite Hix2, lookup_alloc. cbn. by rewrite Hfp.
  - unfold GetIndex. go_red. rewrite Hf2, (lookup_store _ _ _ _ Hx). by cbn.
Qed.

(** X9. [GetContentAsYAMLNode] on the record of an entry never reports
    missing data: it hands the bytes read at discovery to the parser and
    returns the parser's error, caching nothing, or a new node that becomes
    the record's parsed tree. *)
Theorem GetContentAsYAMLNode_of_an_entry_parses_what_was_read :
  exists p file fileData,
    fsOpen (DirFS cfg) p = inl file /\ ReadAll file = inl fileData /\
    match yaml_Unmarshal C fileData with
    | inr err =>
        GetContentAsYAMLNode C l w' = Ret (inr err) (log (EvUnmarshal fileData) w')
    | inl n =>
        exists w2, GetContentAsYAMLNode C l w' = Ret (inl (length (nodes w'))) w2 /\
          nodes w2 !! length (nodes w') = Some n /\
          parsed <$> files w2 !! l = Some (Some (length (nodes w'))) /\
          GetContentAsYAMLNode C l w2 = Ret (inl (length (nodes w'))) w2
    end.
Proof.
  destruct entry_record as (x & Hx & Hok & _).
  destruct Hok as (_ & _ & _ & _ & Hi & Hp
                   & file & fileData & Hopen & Hread & Hdata & _).
  exists (filename x), file, fileData. do 2 (split; [done|]).
  destruct (yaml_Unmarshal C fileData) as [n|err] eqn:Hn.
  - eexists. split; [by apply (GetContentAsYAMLNode_parse C l w' x fileData n)|].
    cbn [nodes files set_files set_nodes].
    split; [apply lookup_alloc|].
    assert (Hl2 : <[l := set_parsed (Some (length (nodes w'))) x]> (files w') !! l
                  = Some (set_parsed (Some (length (nodes w'))) x))
      by (by eapply lookup_store).
    split; [unfold loc in *; by rewrite Hl2|].
    by eapply GetContentAsYAMLNode_parsed.
  - apply (GetContentAsYAMLNode_failure C l w' x fileData err); try done.
    split; [done|by left].
Qed.

End UsingEntries.

(** X10. Every error a constructed file source reports comes from a file:
    it is the error of opening, of stat or of reading a visited file that
    passed the tests of the walk function.  Errors the walk reports for a
    directory are never among them. *)
Theorem reading_errors_come_from_files (C : Collaborators)
    (wd : string + error) (cfg : LocalFSConfig) (w w' : Store) (lfs : LocalFS)
    (e : error) :
  NewLocalFSWithConfig C wd cfg w = Ret (inl lfs) w' ->
  e ∈ fsReadingErrors lfs ->
  exists p d, (p, Some d, None) ∈ rootVisits (DirFS cfg) "." /\
    IsDir d = false /\ skipped cfg p = false /\
    supported (ExtractFileType C p) = true /\
    (fsOpen (DirFS cfg) p = inr e \/
     exists file, fsOpen (DirFS cfg) p = inl file /\
       ((Stat file).2 = Some e \/ ReadAll file = inr e)).
Proof.
  intros Hrun He.
  destruct (NewLocalFSWithConfig_facts C wd cfg w)
    as (r & w1 & s & Hrun' & (_ & _ & _ & _ & _ & _ & _ & _ & Herr) & Hr).
  rewrite Hrun in Hrun'. inversion Hrun'; subst r w1. clear Hrun'.
  destruct (Hr lfs eq_refl) as (_ & HE & _). rewrite HE in He.
  by apply Herr.
Qed.


Lemma sampleWd_absolute : forall d, sampleWd = inl d -> IsAbs d = true.
Proof. intros d [= <-]. reflexivity. Qed.

Lemma entries_can_be_opened_and_read_back_witness :
  exists w2 w3,
    Open sampleWd sampleLocalFS "/specs/a.yaml" discovered = Ret (inl 0) w2 /\
    Open sampleWd sampleLocalFS "a.yaml" discovered = Ret (inl 0) w2 /\
    readChunks 0 3 2 w2 = Ret (bytes "a: 1") w3.
Proof.
  destruct (entries_can_be_opened_and_read_back sampleC sampleWd sampleConfig
              emptyStore discovered sampleLocalFS "/specs/a.yaml" 0
              discovery_sample eq_refl discovered 3 2
              sampleWd_absolute eq_refl eq_refl)
    as (p & file & fileData & w2 & Hp & Hopen & Hread & Hkey & _ & Hpath & Hall).
  injection Hp as <-. injection Hopen as <-. injection Hread as <-.
  destruct (Hall ltac:(lia) ltac:(cbn; lia)) as [w3 Hw3].
  exists w2, w3. split; [exact Hkey|]. split; [exact (Hpath eq_refl eq_refl)|].
  exact Hw3.
Defined.

Lemma Index_of_an_entry_is_stamped_with_its_key_witness :
  exists w2, Index sampleC 3 sampleCfg discovered = Ret (inl 0) w2 /\
    specAbsolutePath <$> indexes w2 !! 0 = Some "/specs/sub/c.yaml" /\
    GetIndex 3 w2 = Ret (Some 0) w2.
Proof.
  destruct (Index_of_an_entry_is_stamped_with_its_key sampleC sampleWd
              sampleConfig emptyStore discovered sampleLocalFS
              "/specs/sub/c.yaml" 3 discovery_sample eq_refl sampleCfg)
    as (p & file & fileData & Hopen & Hread & _ & Hindex).
  injection Hopen as <-. injection Hread as <-.
  exact (Hindex (Some sampleNode) eq_refl).
Defined.

Lemma GetContentAsYAMLNode_of_an_entry_parses_what_was_read_witness :
  exists w2, GetContentAsYAMLNode sampleC 1 discovered = Ret (inl 0) w2 /\
    nodes w2 !! 0 = Some sampleNode /\
    parsed <$> files w2 !! 1 = Some (Some 0) /\
    GetContentAsYAMLNode sampleC 1 w2 = Ret (inl 0) w2.
Proof.
  destruct (GetContentAsYAMLNode_of_an_entry_parses_what_was_read sampleC
              sampleWd sampleConfig emptyStore discovered sampleLocalFS
              "/specs/b.json" 1 discovery_sample eq_refl)
    as (p & file & fileData & Hopen & Hread & Hparse).
  injection Hopen as <-. injection Hread as <-. exact Hparse.
Defined.

Lemma reading_errors_come_from_files_witness :
  exists p d, (p, Some d, None) ∈ rootVisits (DirFS flakyConfig) "." /\
    IsDir d = false /\
    (fsOpen (DirFS flakyConfig) p = inr ErrPermission \/
     exists file, fsOpen (DirFS flakyConfig) p = inl file /\
       ((Stat file).2 = Some ErrPermission \/ ReadAll file = inr ErrPermission)).
Proof.
  assert (Hrun : exists lfs w',
    NewLocalFSWithConfig sampleC sampleWd flakyConfig emptyStore
      = Ret (inl lfs) w' /\ ErrPermission ∈ fsReadingErrors lfs).
  { eexists _, _. split; [vm_compute; reflexivity|]. cbn. apply list_elem_of_here. }
  destruct Hrun as (lfs & w' & Hrun & He).
  destruct (reading_errors_come_from_files sampleC sampleWd flakyConfig
              emptyStore w' lfs ErrPermission Hrun He)
    as (p & d & Hin & Hd & _ & _ & Hor).
  by exists p, d.
Defined.

(** *** A walk without errors visits everything *)

Section WalkRuns.
Context {St : Type}.
Context (fn : string -> option DirEntry -> option error -> St -> Go (St * option error)).

Local Abbreviation quiet := (quiet fn).

Lemma runVisits_app (vs1 vs2 : list (string * option DirEntry * option error))
    (s : St) (w : Store) :
  runVisits fn (vs1 ++ vs2) s w
  = match runVisits fn vs1 s w with
    | Ret s1 w1 => runVisits fn vs2 s1 w1
    | Fault => Fault
    end.
Proof.
  revert s w. induction vs1 as [|v vs1 IH]; intros s w; [done|].
  cbn [app runVisits]. unfold bind.
  destruct (fn v.1.1 v.1.2 v.2 s w) as [[s1 e1] w1|]; [|done].
  cbn [fst]. by rewrite IH.
Qed.

Lemma walkDir_runs_visits (t : Tree) :
  forall name s w, Forall quiet (visits name t) ->
    walkDir fn name t s w
    = match runVisits fn (visits name t) s w with
      | Ret s' w' => Ret (s', None) w'
      | Fault => Fault
      end.
Proof.
  induction t as [nm|nm readErr entries IHentries] using Tree_ind_nested;
    intros name s w Hq.
  - cbn [visits] in Hq. apply Forall_cons in Hq as [Hq _].
    destruct (Hq s w) as (s' & w' & Heq). cbn [fst snd] in Heq.
    cbn [walkDir visits runVisits fst snd]. unfold bind. by rewrite Heq.
  - cbn [visits] in Hq. apply Forall_cons in Hq as [Hfirst Hq].
    apply Forall_app in Hq as [Hsecond Hrest].
    cbn [walkDir visits runVisits fst snd]. unfold bind.
    destruct (Hfirst s w) as (s1 & w1 & Heq). cbn [fst snd] in Heq.
    rewrite Heq. cbn [fst]. clear Heq.
    rewrite runVisits_app.
    assert (Hsnd : exists s2 w2,
      match readErr with
      | Some err =>
          fn name (Some (treeEntry (TDir nm readErr entries))) (Some err) s1
      | None => ret (s1, None)
      end w1 = Ret (s2, None) w2 /\
      runVisits fn
        match readErr with
        | Some err => [(name, Some (treeEntry (TDir nm readErr entries)), Some err)]
        | None => []
        end s1 w1 = Ret s2 w2).
    { destruct readErr as [err|].
      - apply Forall_cons in Hsecond as [Hsecond _].
        destruct (Hsecond s1 w1) as (s2 & w2 & Heq). cbn [fst snd] in Heq.
        exists s2, w2. split; [done|]. cbn [runVisits fst snd]. unfold bind.
        by rewrite Heq.
      - by exists s1, w1. }
    destruct Hsnd as (s2 & w2 & -> & ->).
    clear Hfirst Hsecond. revert s2 w2.
    induction entries as [|d1 rest IHrest]; intros s2 w2; [done|].
    cbn [flat_map] in *. apply Forall_app in Hrest as [Hd1 Hrest].
    apply Forall_cons in IHentries as [IHd1 IHentries].
    rewrite runVisits_app. rewrite (IHd1 _ s2 w2 Hd1).
    destruct (runVisits fn (visits (Join name (treeName d1)) d1) s2 w2)
      as [s3 w3|]; [|done].
    by apply IHrest.
Qed.

Lemma runVisits_quiet (vs : list (string * option DirEntry * option error)) :
  forall s w, Forall quiet vs -> exists s' w', runVisits fn vs s w = Ret s' w'.
Proof.
  induction vs as [|v vs IH]; intros s w Hq; [by exists s, w|].
  apply Forall_cons in Hq as [Hv Hq].
  destruct (Hv s w) as (s1 & w1 & Heq).
  cbn [runVisits]. unfold bind. rewrite Heq. cbn [fst]. by apply IH.
Qed.

(** The walk stops at the first visit on which the walk function returns an
    error that is not [SkipDir], with the state the visits before it left. *)
Lemma walkDir_stops_at_first_error (t : Tree) :
  forall name s w pre p d e post,
    visits name t = pre ++ (p, d, Some e) :: post ->
    Forall quiet pre ->
    (forall s w, fn p d (Some e) s w = Ret (s, Some e) w) ->
    isSkipDir e = false ->
    exists s' w', runVisits fn pre s w = Ret s' w' /\
      walkDir fn name t s w = Ret (s', Some e) w'.
Proof.
  induction t as [nm|nm readErr entries IHentries] using Tree_ind_nested;
    intros name s w pre p d e post Hvs Hq Hfn Hskip.
  - cbn [visits] in Hvs. destruct pre as [|v [|v' pre]]; discriminate Hvs.
  - cbn [visits] in Hvs. destruct pre as [|v0 pre]; [discriminate Hvs|].
    injection Hvs as <- Hvs. apply Forall_cons in Hq as [Hq0 Hq].
    destruct (Hq0 s w) as (s1 & w1 & Heq0). cbn [fst snd] in Heq0.
    cbn [walkDir runVisits fst snd treeEntry] in Heq0, Hvs |- *. unfold bind.
    rewrite Heq0. cbn [fst]. clear Heq0 Hq0.
    set (dir := {| Name := nm; IsDir := true |}) in *.
    assert (Hsecond :
      (readErr = Some e /\ pre = [] /\ p = name /\ d = Some dir) \/
      exists s2 w2 pre2,
        match readErr with
        | Some err => fn name (Some dir) (Some err) s1
        | None => ret (s1, None)
        end w1 = Ret (s2, None) w2 /\
        (forall s' w', runVisits fn pre2 s2 w2 = Ret s' w' ->
                       runVisits fn pre s1 w1 = Ret s' w') /\
        Forall quiet pre2 /\
        flat_map (fun d1 => visits (Join name (treeName d1)) d1) entries
          = pre2 ++ (p, d, Some e) :: post).
    { destruct readErr as [err|]; cbn [app] in Hvs.
      - destruct pre as [|v1 pre].
        + left. by injection Hvs as <- <- <- _.
        + right. injection Hvs as <- Hvs. apply Forall_cons in Hq as [Hq1 Hq].
          destruct (Hq1 s1 w1) as (s2 & w2 & Heq1). cbn [fst snd] in Heq1.
          exists s2, w2, pre. split; [done|]. split; [|done].
          intros s' w' Hrun. cbn [runVisits fst snd]. unfold bind.
          rewrite Heq1. exact Hrun.
      - right. by exists s1, w1, pre. }
    destruct Hsecond as [(-> & -> & -> & ->) | (s2 & w2 & pre2 & Heq & Hpre & Hq2 & Hflat)].
    { exists s1, w1. split; [done|]. rewrite Hfn.
      unfold ret. by rewrite Hskip. }
    rewrite Heq. clear Heq Hvs Hq.
    enough (Hloop : exists s' w', runVisits fn pre2 s2 w2 = Ret s' w' /\
      (fix walkEntries (ts : list Tree) (s0 : St) {struct ts} :
           Go (St * option error) :=
         match ts with
         | [] => ret (s0, None)
         | d1 :: rest =>
             bind (walkDir fn (Join name (treeName d1)) d1 s0)
               (fun r => match r with
                         | (s', Some err) =>
                             ret (s', if isSkipDir err then None else Some err)
                         | (s', None) => walkEntries rest s'
                         end)
         end) entries s2 w2 = Ret (s', Some e) w').
    { destruct Hloop as (s' & w' & Hrun & Hwalk). exists s', w'.
      split; [by apply Hpre|exact Hwalk]. }
    clear Hpre pre. revert s2 w2 pre2 Hq2 Hflat.
    induction entries as [|d1 rest IHrest]; intros s2 w2 pre2 Hq2 Hflat.
    { cbn in Hflat. by destruct pre2. }
    apply Forall_cons in IHentries as [IHd1 IHentries].
    cbn [flat_map] in Hflat |- *.
    apply app_eq_inv in Hflat as [(k & Hk1 & Hk2) | (k & Hk1 & Hk2)].
    + destruct k as [|v k].
      * rewrite app_nil_r in Hk1. cbn [app] in Hk2. subst pre2.
        unfold bind. rewrite (walkDir_runs_visits d1) by done.
        destruct (runVisits_quiet _ s2 w2 Hq2) as (s3 & w3 & Heq). rewrite Heq.
        destruct (IHrest IHentries s3 w3 [] (Forall_nil_2 _) (eq_sym Hk2))
          as (s' & w' & Hrun & Hwalk).
        cbn in Hrun. injection Hrun as <- <-.
        exists s3, w3. by split.
      * injection Hk2 as <- Hpost.
        destruct (IHd1 _ s2 w2 pre2 p d e k Hk1 Hq2 Hfn Hskip)
          as (s' & w' & Hrun & Hwalk).
        exists s', w'. split; [done|]. unfold bind. rewrite Hwalk.
        unfold ret. by rewrite Hskip.
    + subst pre2. apply Forall_app in Hq2 as [Hqd1 Hqk].
      rewrite runVisits_app. unfold bind.
      rewrite (walkDir_runs_visits d1) by done.
      destruct (runVisits_quiet _ s2 w2 Hqd1) as (s3 & w3 & Heq). rewrite Heq.
      by apply IHrest.
Qed.

End WalkRuns.

Section Completeness.
Context (C : Collaborators) (wd : string + error) (cfg : LocalFSConfig).

Local Abbreviation fn :=
  (walkFn C wd cfg (Ext (BaseDirectory cfg)) (Base (BaseDirectory cfg))).

(** Without an error from the walk, the walk function keeps every key it
    has and files a readable visit under its key. *)
Lemma walkFn_files_readable (v : string * option DirEntry * option error)
    (s : Walk) (w : Store) :
  v.2 = None ->
  exists s' w', fn v.1.1 v.1.2 v.2 s w = Ret (s', None) w' /\
    (forall k, is_Some (localFiles s !! k) -> is_Some (localFiles s' !! k)) /\
    (readable C cfg v -> is_Some (localFiles s' !! keyOf wd cfg v.1.1)).
Proof.
  destruct v as [[p d] err]. cbn [fst snd]. intros ->.
  assert (Hskip : (readable C cfg (p, d, None) -> False) ->
    exists s' w', Ret (s, @None error) w = Ret (s', None) w' /\
      (forall k, is_Some (localFiles s !! k) -> is_Some (localFiles s' !! k)) /\
      (readable C cfg (p, d, None) -> is_Some (localFiles s' !! keyOf wd cfg p))).
  { intros Hno. exists s, w. split; [done|]. split; [done|]. by intros ?%Hno. }
  destruct d as [d|].
  2: { rewrite walkFn_not_a_file by done. apply Hskip.
       by intros (d & ? & ? & [=] & _). }
  destruct (IsDir d) eqn:Hd.
  { rewrite walkFn_not_a_file by done. apply Hskip.
    intros (d' & ? & ? & [= <-] & _ & Hd' & _). congruence. }
  destruct (skipped cfg p) eqn:Hs.
  { rewrite walkFn_skipped by done. apply Hskip.
    intros (d' & ? & ? & _ & _ & _ & Hs' & _). cbn in Hs'. congruence. }
  destruct (supported (ExtractFileType C p)) eqn:Ht.
  2: { rewrite walkFn_unsupported by done. apply Hskip.
       intros (d' & ? & ? & _ & _ & _ & _ & Ht' & _). cbn in Ht'. congruence. }
  rewrite walkFn_candidate by done. unfold acquired, keyOf.
  destruct (Abs wd (Join (BaseDirectory cfg) p)) as [a|absErr];
    destruct (fsOpen (DirFS cfg) p) as [file|e] eqn:Hopen;
    try (eexists _, _; split; [reflexivity|]; split; [done|];
         intros (d' & ? & ? & _ & _ & _ & _ & _ & Ho & _); cbn in Ho; congruence);
    destruct (ReadAll file) as [fileData|e] eqn:Hread;
    try (eexists _, _; split; [reflexivity|]; split;
         [intros k; cbn; by destruct (Stat file).2|];
         intros (d' & file' & ? & _ & _ & _ & _ & _ & Ho & Hr); cbn in Ho;
         assert (file' = file) as -> by congruence; congruence).
  all: eexists _, _; split; [reflexivity|]; split.
  all: try (intros _; cbn; by rewrite lookup_insert_eq).
  all: intros k Hk; cbn; apply lookup_insert_is_Some';
    right; by destruct (Stat file).2.
Qed.

Lemma walkFn_quiet (v : string * option DirEntry * option error) :
  v.2 = None -> quiet fn v.
Proof.
  intros Hv s w. destruct (walkFn_files_readable v s w Hv) as (s' & w' & H & _).
  by exists s', w'.
Qed.

Lemma runVisits_files_readable
    (vs : list (string * option DirEntry * option error)) :
  forall s w, Forall (fun v => v.2 = None) vs ->
    exists s' w', runVisits fn vs s w = Ret s' w' /\
      (forall k, is_Some (localFiles s !! k) -> is_Some (localFiles s' !! k)) /\
      (forall v, v ∈ vs -> readable C cfg v ->
         is_Some (localFiles s' !! keyOf wd cfg v.1.1)).
Proof.
  induction vs as [|v vs IH]; intros s w Hq.
  - exists s, w. split; [done|]. split; [done|]. by intros v ?%elem_of_nil.
  - apply Forall_cons in Hq as [Hv Hq]. cbn [runVisits]. unfold bind.
    destruct (walkFn_files_readable v s w Hv) as (s1 & w1 & -> & Hkeep1 & Hnew1).
    cbn [fst]. destruct (IH s1 w1 Hq) as (s' & w' & -> & Hkeep & Hnew).
    exists s', w'. split; [done|]. split; [by auto|].
    intros v' [->|Hin]%elem_of_cons Hr; [by auto|by apply Hnew].
Qed.

(** X11. When the walk reports no error, no readable file is missed: every
    visited file that passes the tests of the walk function and can be
    opened and read has an entry under its key in the file source
    construction returns. *)
Theorem readable_files_become_entries (w w' : Store) (lfs : LocalFS)
    (p : string) (d : DirEntry) (file : File) (fileData : list byte) :
  NewLocalFSWithConfig C wd cfg w = Ret (inl lfs) w' ->
  walkErrors (DirFS cfg) = [] ->
  (p, Some d, None) ∈ rootVisits (DirFS cfg) "." ->
  IsDir d = false -> skipped cfg p = false ->
  supported (ExtractFileType C p) = true ->
  fsOpen (DirFS cfg) p = inl file -> ReadAll file = inl fileData ->
  is_Some (GetFiles lfs !! keyOf wd cfg p).
Proof.
  intros Hrun Hnone Hin Hd Hs Ht Hopen Hread.
  assert (Hall : Forall (fun v => v.2 = None) (rootVisits (DirFS cfg) ".")).
  { apply Forall_forall. intros v Hv. destruct v.2 as [e|] eqn:He; [|done].
    assert (e ∈ walkErrors (DirFS cfg))
      by (apply list_elem_of_omap; by exists v).
    rewrite Hnone in H. by apply elem_of_nil in H. }
  unfold NewLocalFSWithConfig in Hrun. cbv zeta in Hrun.
  destruct (Abs wd (BaseDirectory cfg)) as [absBaseDir|e]; [|done].
  unfold bind, WalkDir, rootVisits in *.
  destruct (fsRoot (DirFS cfg)) as [t|e].
  2: { apply Forall_cons in Hall as [Hall _]. done. }
  unfold bind in Hrun. rewrite walkDir_runs_visits in Hrun.
  2: { eapply Forall_impl; [exact Hall|]. intros v Hv. by apply walkFn_quiet. }
  destruct (runVisits_files_readable (visits "." t)
              {| localFiles := ∅; allErrors := [] |} w Hall)
    as (s' & w1 & Heq & _ & Hnew).
  rewrite Heq in Hrun. cbn in Hrun. inversion Hrun; subst. cbn.
  apply (Hnew (p, Some d, None) Hin). by exists d, file, fileData.
Qed.

End Completeness.

Lemma readable_files_become_entries_witness :
  is_Some (GetFiles sampleLocalFS !! "/specs/sub/c.yaml").
Proof.
  apply (readable_files_become_entries sampleC sampleWd sampleConfig
           emptyStore discovered sampleLocalFS "sub/c.yaml"
           {| Name := "c.yaml"; IsDir := false |}
           {| Stat := (Some {| ModTime := 42; Size := 4 |}, None);
              ReadAll := inl (bytes "a: 1") |}
           (bytes "a: 1") discovery_sample eq_refl).
  - vm_compute. do 7 apply list_elem_of_further. apply list_elem_of_here.
  - reflexivity.
  - reflexivity.
  - reflexivity.
  - reflexivity.
  - reflexivity.
Defined.

(** *** Construction and the errors of the walk *)

Section Construction.
Context (C : Collaborators) (wd : string + error).

(** C2. The code does not treat the errors the walk reports as non-fatal.
    Construction always returns.  It fails only when the base directory
    cannot be made absolute or when the walk reports an error to the walk
    function (the failed stat of the root, or the failed listing of a
    directory at any depth), and then with that very error.  The failed stat
    of the root and the failed listing of the root fail construction and
    leave the store as it was, unless the error is [SkipDir] or [SkipAll].
    More generally, take the first error [e] the walk reports, at any depth,
    [e] not being [SkipDir]: the walk function has run on the visits before
    it and hands [e] back, which stops the walk; construction then returns
    [e] and no file source, whatever was collected on those visits, except
    when [e] is [SkipAll], where it returns the file source collected so
    far.  When the walk reports no error, construction succeeds whatever
    opening, stat and reading of the files give. *)
Theorem construction_fails_on_reported_walk_errors
    (cfg : LocalFSConfig) (w : Store) :
  exists r w', NewLocalFSWithConfig C wd cfg w = Ret r w' /\
    (forall e, r = inr e ->
       Abs wd (BaseDirectory cfg) = inr e \/ e ∈ walkErrors (DirFS cfg)) /\
    (forall absBase, Abs wd (BaseDirectory cfg) = inl absBase ->
       walkErrors (DirFS cfg) = [] ->
       exists l, r = inl l /\ baseDirectory l = absBase) /\
    (forall absBase e, Abs wd (BaseDirectory cfg) = inl absBase ->
       isSkipDir e || isSkipAll e = false ->
       fsRoot (DirFS cfg) = inr e \/
         (exists nm entries, fsRoot (DirFS cfg) = inl (TDir nm (Some e) entries)) ->
       r = inr e /\ w' = w) /\
    (forall absBase pre p d e post,
       Abs wd (BaseDirectory cfg) = inl absBase ->
       rootVisits (DirFS cfg) "." = pre ++ (p, d, Some e) :: post ->
       Forall (fun v => v.2 = None) pre ->
       isSkipDir e = false ->
       exists s',
         runVisits (walkFn C wd cfg (Ext (BaseDirectory cfg))
                      (Base (BaseDirectory cfg)))
           pre {| localFiles := ∅; allErrors := [] |} w = Ret s' w' /\
         r = if isSkipAll e
             then inl {| entryPointDirectory := BaseDirectory cfg;
                         baseDirectory := absBase;
                         Files := localFiles s';
                         parseTime := 0;
                         fsReadingErrors := allErrors s';
                         filters := [] |}
             else inr e).
Proof.
  destruct (NewLocalFSWithConfig_cases C wd cfg w w eq_refl)
    as (r & w' & Hrun & Hr).
  exists r, w'. split; [exact Hrun|]. split; [|split; [|split]].
  - intros e ->. exact Hr.
  - intros absBase Habs Hnone. destruct r as [l|e].
    + exists l. split; [done|]. destruct Hr as [_ Hb]. congruence.
    + destruct Hr as [Hr|Hr]; [congruence|]. rewrite Hnone in Hr.
      by apply elem_of_nil in Hr.
  - intros absBase e Habs Hskip Hroot. unfold NewLocalFSWithConfig in Hrun.
    cbv zeta in Hrun. rewrite Habs in Hrun. unfold bind, WalkDir in Hrun.
    apply orb_false_elim in Hskip as [HskipDir HskipAll].
    destruct Hroot as [Hroot|(nm & entries & Hroot)]; rewrite Hroot in Hrun.
    + unfold bind in Hrun. rewrite walkFn_error in Hrun. unfold ret in Hrun.
      rewrite HskipDir, HskipAll in Hrun. cbn in Hrun. by inversion Hrun.
    + cbn [walkDir] in Hrun. unfold bind in Hrun.
      rewrite walkFn_not_a_file in Hrun by done.
      rewrite walkFn_error in Hrun. unfold ret in Hrun.
      rewrite HskipDir in Hrun. rewrite HskipDir, HskipAll in Hrun.
      cbn in Hrun. by inversion Hrun.
  - intros absBase pre p d e post Habs Hvs Hpre Hskip.
    unfold NewLocalFSWithConfig in Hrun. cbv zeta in Hrun.
    rewrite Habs in Hrun. unfold bind, WalkDir in Hrun.
    unfold rootVisits in Hvs.
    destruct (fsRoot (DirFS cfg)) as [t|e0].
    + destruct (walkDir_stops_at_first_error _ t "."
                  {| localFiles := ∅; allErrors := [] |} w pre p d e post Hvs
                  (Forall_impl _ _ _ Hpre (walkFn_quiet C wd cfg))
                  (walkFn_error C wd cfg p d e) Hskip)
        as (s' & w1 & Hrunpre & Hwalk).
      unfold bind in Hrun. rewrite Hwalk in Hrun. unfold ret in Hrun.
      rewrite Hskip in Hrun. cbn [orb] in Hrun.
      exists s'. destruct (isSkipAll e); inversion Hrun; by subst.
    + destruct pre as [|v [|v' pre]]; try discriminate Hvs.
      injection Hvs as <- <- <- <-.
      unfold bind in Hrun. rewrite walkFn_error in Hrun. unfold ret in Hrun.
      rewrite Hskip in Hrun. cbn [orb] in Hrun.
      exists {| localFiles := ∅; allErrors := [] |}.
      destruct (isSkipAll e0); inversion Hrun; by subst.
Qed.

End Construction.

Lemma construction_fails_on_reported_walk_errors_witness :
  exists w', NewLocalFSWithConfig sampleC sampleWd lockedConfig emptyStore
               = Ret (inr ErrPermission) w' /\
    filename <$> files w' = ["a.yaml"].
Proof.
  destruct (construction_fails_on_reported_walk_errors sampleC sampleWd
              lockedConfig emptyStore)
    as (r & w' & Hrun & _ & _ & _ & Hfirst).
  destruct (Hfirst "/specs"
              [(".", Some {| Name := "."; IsDir := true |}, None);
               ("a.yaml", Some {| Name := "a.yaml"; IsDir := false |}, None);
               ("locked", Some {| Name := "locked"; IsDir := true |}, None)]
              "locked" (Some {| Name := "locked"; IsDir := true |})
              ErrPermission
              [("locked/x.yaml", Some {| Name := "x.yaml"; IsDir := false |}, None);
               ("z.yaml", Some {| Name := "z.yaml"; IsDir := false |}, None)]
              eq_refl eq_refl
              ltac:(repeat constructor) eq_refl)
    as (s' & Hpre & Hr).
  cbn in Hr. subst r. exists w'. split; [exact Hrun|].
  vm_compute in Hpre. by injection Hpre as _ <-.
Defined.

(** *** The mapping of a discriminator *)

Lemma NewDiscriminator_snoc (pn : NodeReference)
    (items : list (KeyReference * ValueReference))
    (it : KeyReference * ValueReference) :
  Mapping (NewDiscriminator {| lowPropertyName := pn; lowMapping := items ++ [it] |})
  = <[kValue it.1 := vValue it.2]>
      (Mapping (NewDiscriminator {| lowPropertyName := pn; lowMapping := items |})).
Proof. cbn. by rewrite fold_left_app. Qed.

(** X12. In the mapping [NewDiscriminator] builds, a name maps to the value
    of the entry visited last among the low-level entries whose key has that
    name, and names no key has are absent.  With two keys of the same name
    the result therefore depends on the order in which the Go map is
    visited. *)
Theorem NewDiscriminator_keeps_the_last_visited (disc : lowDiscriminator)
    (s : string) :
  Mapping (NewDiscriminator disc) !! s
  = (fun it => vValue it.2)
      <$> last (filter (fun it => kValue it.1 = s) (lowMapping disc)).
Proof.
  destruct disc as [pn items].
  induction items as [|it items IH] using rev_ind; [done|].
  rewrite NewDiscriminator_snoc. cbn [lowMapping] in *.
  rewrite filter_app. destruct (decide (kValue it.1 = s)) as [<-|Hne].
  - rewrite lookup_insert_eq. rewrite filter_cons_True by done.
    cbn. by rewrite last_snoc.
  - rewrite lookup_insert_ne by done. rewrite filter_cons_False by done.
    cbn. rewrite app_nil_r. exact IH.
Qed.

Lemma NewDiscriminator_list_to_map (disc : lowDiscriminator) :
  Mapping (NewDiscriminator disc)
  = list_to_map (reverse ((fun it => (kValue it.1, vValue it.2)) <$> lowMapping disc)).
Proof.
  destruct disc as [pn items].
  induction items as [|it items IH] using rev_ind; [done|].
  rewrite NewDiscriminator_snoc, IH. cbn [lowMapping].
  by rewrite fmap_app, reverse_app.
Qed.

(** X13. When the keys of the low-level mapping have pairwise different
    names, the mapping [NewDiscriminator] builds does not depend on the
    order in which the Go map is visited: it has one entry per low-level
    entry, mapping the name of the key to the value, and nothing else; the
    property name is the [Value] of the low-level property name, and
    [GoLow] gives back the low-level object. *)
Theorem NewDiscriminator_is_order_independent (disc disc' : lowDiscriminator) :
  NoDup ((fun it => kValue it.1) <$> lowMapping disc) ->
  lowPropertyName disc' = lowPropertyName disc ->
  lowMapping disc' ≡ₚ lowMapping disc ->
  Mapping (NewDiscriminator disc') = Mapping (NewDiscriminator disc) /\
  PropertyName (NewDiscriminator disc') = PropertyName (NewDiscriminator disc) /\
  PropertyName (NewDiscriminator disc) = nValue (lowPropertyName disc) /\
  (forall s v, Mapping (NewDiscriminator disc) !! s = Some v <->
     exists it, it ∈ lowMapping disc /\ kValue it.1 = s /\ vValue it.2 = v) /\
  size (Mapping (NewDiscriminator disc)) = length (lowMapping disc) /\
  GoLow (NewDiscriminator disc) = disc.
Proof.
  intros Hnd Hpn Hperm.
  set (proj := fun it : KeyReference * ValueReference => (kValue it.1, vValue it.2)).
  assert (Hkeys : forall items : list (KeyReference * ValueReference),
            (reverse (proj <$> items)).*1 ≡ₚ (fun it => kValue it.1) <$> items).
  { intros items.
    by rewrite fmap_reverse, reverse_Permutation, <- list_fmap_compose. }
  assert (Hnd' : NoDup (reverse (proj <$> lowMapping disc)).*1) by by rewrite Hkeys.
  rewrite !NewDiscriminator_list_to_map. fold proj. repeat split.
  - apply list_to_map_proper.
    + rewrite Hkeys, Hperm. done.
    + rewrite !reverse_Permutation. by rewrite Hperm.
  - cbn. by rewrite Hpn.
  - intros Hs. apply elem_of_list_to_map in Hs; [|done].
    rewrite elem_of_reverse in Hs.
    apply list_elem_of_fmap in Hs as (it & [= -> ->] & Hin). by exists it.
  - intros (it & Hin & <- & <-). apply elem_of_list_to_map; [done|].
    rewrite elem_of_reverse. apply list_elem_of_fmap. by exists it.
  - rewrite map_size_list_to_map by done.
    by rewrite length_reverse, length_fmap.
Qed.

Lemma NewDiscriminator_is_order_independent_witness :
  Mapping (NewDiscriminator (sampleDiscriminator (rev (tail clashingMapping))))
  = Mapping (NewDiscriminator (sampleDiscriminator (tail clashingMapping))) /\
  size (Mapping (NewDiscriminator (sampleDiscriminator (tail clashingMapping)))) = 2 /\
  PropertyName (NewDiscriminator (sampleDiscriminator (tail clashingMapping)))
  = "petType".
Proof.
  destruct (NewDiscriminator_is_order_independent
              (sampleDiscriminator (tail clashingMapping))
              (sampleDiscriminator (rev (tail clashingMapping))))
    as (Heq & _ & Hname & _ & Hsize & _).
  - cbn. apply NoDup_cons. split; [|apply NoDup_singleton].
    intros Hin%list_elem_of_singleton. discriminate.
  - reflexivity.
  - cbn. apply perm_swap.
  - split; [exact Heq|]. split; [exact Hsize|exact Hname].
Defined.

(** With two keys of one name, the two orders of visiting them give two
    different mappings. *)
Example NewDiscriminator_clash :
  Mapping (NewDiscriminator (sampleDiscriminator clashingMapping)) !! "cat"
    = Some "#/components/schemas/Lion" /\
  Mapping (NewDiscriminator (sampleDiscriminator (rev clashingMapping))) !! "cat"
    = Some "#/components/schemas/Cat".
Proof. split; vm_compute; reflexivity. Qed.

(** *** Overlapping calls on content that does not parse *)

Section FailingThreads.
Context (C : Collaborators) (l : loc) (x : LocalFile) (w0 : Store) (err : error).
Context (Hl : files w0 !! l = Some x) (Hi : index x = None).
Context (Herr : ExtractSpecInfoWithDocumentCheck C (bytes_of (data x)) true = inr err).

Lemma failingInv_swap (pcA pcB : IndexPC) (w : Store) :
  failingInv err w0 (pcA, pcB) w -> failingInv err w0 (pcB, pcA) w.
Proof.
  intros (Hf & Hix & Hn & Hb & Hp & Hpub & Hret). cbn [fst snd] in *.
  do 4 (split; [done|]). split; [cbn [fst snd]; lia|]. split.
  - intros i. destruct (Hpub i). by split.
  - intros r [H|H]; apply Hret; [by right|by left].
Qed.

Lemma indexStep_failing (cfg : SpecIndexConfig) (pcA pcB : IndexPC) (w : Store) :
  failingInv err w0 (pcA, pcB) w ->
  exists pcA' w', indexStep C l cfg pcA w = Ret pcA' w' /\
    failingInv err w0 (pcA', pcB) w'.
Proof.
  intros HI. pose proof HI as (Hf & Hix & Hn & Hb & Hp & Hpub & Hret).
  cbn [fst snd] in Hp, Hpub, Hret.
  assert (Hlw : files w !! l = Some x) by by rewrite Hf.
  destruct pcA as [| |i|r]; unfold indexStep.
  - go_run. eexists _, _. split; [reflexivity|].
    do 5 (split; [done|]). split.
    + intros i. destruct (Hpub i). by split.
    + intros r [H|H]; [done|]. apply Hret. by right.
  - go_run. eexists _, _. split; [reflexivity|].
    do 3 (split; [done|]). split; [by rewrite builds_log|].
    split; [rewrite parses_log; cbn in *; lia|]. split.
    + intros i. destruct (Hpub i). by split.
    + intros r [[= <-]|H]; [done|]. apply Hret. by right.
  - by destruct (Hpub i).
  - by exists (Returned r), w.
Qed.

Lemma runSchedule_failing (cfgA cfgB : SpecIndexConfig) (sched : list bool) :
  forall pcs w, failingInv err w0 pcs w ->
    exists pcs' w', runSchedule C l cfgA cfgB sched pcs w = Ret pcs' w' /\
      failingInv err w0 pcs' w'.
Proof.
  induction sched as [|[|] rest IH]; intros [pcA pcB] w HI.
  - by exists (pcA, pcB), w.
  - cbn [runSchedule fst snd]. unfold bind.
    destruct (indexStep_failing cfgA pcA pcB w HI) as (pcA' & w1 & -> & HI1).
    by apply IH.
  - cbn [runSchedule fst snd]. unfold bind.
    destruct (indexStep_failing cfgB pcB pcA w (failingInv_swap _ _ _ HI))
      as (pcB' & w1 & -> & HI1).
    by apply IH, failingInv_swap.
Qed.

End FailingThreads.

(** X14. Two overlapping [Index] calls on a record whose content does not
    parse leave nothing behind, however their steps interleave: no step
    faults, no node or index is allocated, the record stays without an
    index, a call that has returned has returned the parse error, and each
    call parsed at most once. *)
Theorem failing_Index_calls_publish_nothing (C : Collaborators) (l : loc)
    (cfgA cfgB : SpecIndexConfig) (w : Store) (x : LocalFile) (err : error)
    (sched : list bool) :
  files w !! l = Some x -> index x = None ->
  ExtractSpecInfoWithDocumentCheck C (bytes_of (data x)) true = inr err ->
  exists pcs' w',
    runSchedule C l cfgA cfgB sched (AtEntry, AtEntry) w = Ret pcs' w' /\
    files w' = files w /\ indexes w' = indexes w /\ nodes w' = nodes w /\
    builds w' = builds w /\ parses w' <= parses w + 2 /\
    (forall r, pcs'.1 = Returned r \/ pcs'.2 = Returned r -> r = inr err) /\
    GetIndex l w' = Ret None w'.
Proof.
  intros Hl Hi Herr.
  destruct (runSchedule_failing C l x w err Hl Hi Herr cfgA cfgB sched
              (AtEntry, AtEntry) w)
    as (pcs' & w' & Hrun & Hf & Hix & Hn & Hb & Hp & _ & Hret).
  { do 4 (split; [done|]). split; [cbn; lia|]. split; [done|].
    by intros r [H|H]. }
  exists pcs', w'. do 5 (split; [done|]).
  split; [destruct (hasReturned pcs'.1), (hasReturned pcs'.2); cbn in Hp; lia|].
  split; [done|]. unfold GetIndex. go_red. by rewrite Hf, Hl, Hi.
Qed.

Lemma failing_Index_calls_publish_nothing_witness :
  exists w',
    runSchedule sampleC 0 sampleCfg sampleCfg [true; false; false; true]
      (AtEntry, AtEntry) (sampleStore "!a")
    = Ret (Returned (inr (ErrYAML "yaml: did not find expected node content")),
           Returned (inr (ErrYAML "yaml: did not find expected node content"))) w' /\
    files w' = files (sampleStore "!a") /\ indexes w' = [].
Proof.
  destruct (failing_Index_calls_publish_nothing sampleC 0 sampleCfg sampleCfg
              (sampleStore "!a") _ _ [true; false; false; true]
              eq_refl eq_refl eq_refl)
    as (pcs' & w' & Hrun & Hf & Hix & _).
  exists w'. split; [|by split].
  rewrite Hrun. f_equal.
  assert (Hc : runSchedule sampleC 0 sampleCfg sampleCfg [true; false; false; true]
                 (AtEntry, AtEntry) (sampleStore "!a")
               = Ret (Returned (inr (ErrYAML "yaml: did not find expected node content")),
                      Returned (inr (ErrYAML "yaml: did not find expected node content")))
                     (log (EvExtractSpecInfo (bytes "!a"))
                        (log (EvExtractSpecInfo (bytes "!a")) (sampleStore "!a"))))
    by (vm_compute; reflexivity).
  rewrite Hc in Hrun. by inversion Hrun.
Defined.
